(** * Fee-schedule parsing, product segmentation and effective fees

    A shallow embedding of the core of the adviser fee analysis:
    [enhanced_fee_analysis.py] (module [Main] below) and the stand-alone
    pipeline stage [enhanced_fee_analysis_step3.py] (module [Step3]).

    Modelling conventions.
    - Cell texts are ASCII [string]s; a missing cell (Python [None] or a
      pandas NaN, the values [pd.isna] accepts) is [None : option string].
    - A Python float is the rational [Q] it denotes, and every operation on
      floats is the exact operation followed by [round64], the rounding of
      IEEE 754 binary64 (53 significant bits, to nearest, ties to even).  The
      exponent is not bounded: the model is binary64 wherever no result
      overflows or is subnormal, that is for results of magnitude between
      2^-1022 and 2^1024.  [float('inf')], which only ever occurs as the
      upper bound of a tier, is the constructor [Inf] of [bound].
    - [re.search] is modelled by a backtracking matcher for the fragment of
      regular expressions the sources use: sequences of single-character
      atoms under the greedy quantifiers [x], [x?], [x*], [x+], with capture
      groups. *)

From Stdlib Require Import Bool Arith ZArith NArith List Ascii String.
From Stdlib Require Import QArith Qabs Qminmax Qround Qpower Lia Lqa.
From Stdlib Require PrimFloat FloatOps SpecFloat.
From Stdlib Require Import Permutation.
Import ListNotations.

Local Open Scope string_scope.
Local Open Scope list_scope.

(** ** Characters and strings as Python sees them *)

Definition is_digit (c : ascii) : bool :=
  let n := N_of_ascii c in ((48 <=? n) && (n <=? 57))%N.

(** [str.isspace] on the ASCII range: TAB..CR, FS..US and the blank. *)
Definition is_space (c : ascii) : bool :=
  let n := N_of_ascii c in
  (((9 <=? n) && (n <=? 13)) || ((28 <=? n) && (n <=? 32)))%N.

Definition lower_char (c : ascii) : ascii :=
  let n := N_of_ascii c in
  if ((65 <=? n) && (n <=? 90))%N then ascii_of_N (n + 32) else c.

(** [s.lower()] *)
Fixpoint str_lower (s : string) : string :=
  match s with
  | EmptyString => EmptyString
  | String c s' => String (lower_char c) (str_lower s')
  end.

Fixpoint all_chars (p : ascii -> bool) (s : string) : bool :=
  match s with
  | EmptyString => true
  | String c s' => p c && all_chars p s'
  end.

Fixpoint any_char (p : ascii -> bool) (s : string) : bool :=
  match s with
  | EmptyString => false
  | String c s' => p c || any_char p s'
  end.

(** [s.strip() == ''] holds exactly when every character is white space. *)
Definition strip_is_empty (s : string) : bool := all_chars is_space s.

(** [s.replace(',', '')] *)
Fixpoint remove_commas (s : string) : string :=
  match s with
  | EmptyString => EmptyString
  | String c s' =>
      if Ascii.eqb c "," then remove_commas s' else String c (remove_commas s')
  end.

(** [x in [...]] for a list of string literals. *)
Definition in_list (s : string) (l : list string) : bool :=
  existsb (String.eqb s) l.

Fixpoint take (n : nat) (s : string) : string :=
  match n, s with
  | S n', String c s' => String c (take n' s')
  | _, _ => EmptyString
  end.

(** ** Binary64 arithmetic

    A finite float is a rational with a significand of at most 53 bits.
    [round64 x] is the float nearest to [x], the one with an even significand
    when two are equally near. *)

(** The exponent of a non-zero rational: [2 ^ ilog2 x <= |x| < 2 ^ (ilog2 x + 1)]. *)
Definition ilog2 (x : Q) : Z :=
  let k := (Z.log2 (Z.abs (Qnum x)) - Z.log2 (Zpos (Qden x)))%Z in
  if Qle_bool (2 ^ k) (Qabs x) then k else (k - 1)%Z.

(** The nearest integer, the even one at a tie. *)
Definition rne (y : Q) : Z :=
  let f := Qfloor y in
  match Qcompare (y - inject_Z f) (1 # 2) with
  | Lt => f
  | Gt => (f + 1)%Z
  | Eq => if Z.even f then f else (f + 1)%Z
  end.

(** Rounding a positive number: the significand [x / 2 ^ e], which lies
    between [2 ^ 52] and [2 ^ 53], is rounded to an integer. *)
Definition round_pos (x : Q) : Q :=
  let e := (ilog2 x - 52)%Z in
  Qred (inject_Z (rne (x / 2 ^ e)) * 2 ^ e).

Definition round64 (x : Q) : Q :=
  match Qcompare x 0 with
  | Eq => 0
  | Gt => round_pos x
  | Lt => - round_pos (- x)
  end.


(** A number that binary64 holds exactly. *)
Definition representable (x : Q) : Prop := round64 x == x.

(** [a + b], [a - b], [a * b] and [a / b] on floats. *)
Definition fadd (a b : Q) : Q := round64 (a + b).
Definition fsub (a b : Q) : Q := round64 (a - b).
Definition fmul (a b : Q) : Q := round64 (a * b).
Definition fdiv (a b : Q) : Q := round64 (a / b).

(** ** [float(...)] on the texts the patterns capture

    Every text handed to [float] is a capture of [\d+,?\d*\.?\d*] or
    [\d+\.?\d*] with the commas removed: decimal digits, optionally followed
    by a point and further digits.  Other texts make Python raise
    [ValueError]; they are [None] here, and the lemmas [dollar_converts] to
    [num_converts] below show that no capture is among them.  The decimal
    number the text denotes is rounded to a float. *)

Definition digit_value (c : ascii) : Z := Z.of_N (N_of_ascii c) - 48.

Fixpoint digits_value (acc : Z) (s : string) : Z :=
  match s with
  | EmptyString => acc
  | String c s' => digits_value (10 * acc + digit_value c) s'
  end.

(** Splits at the first point: the text before it, and the text after it
    when there is one. *)
Fixpoint split_point (s : string) : string * option string :=
  match s with
  | EmptyString => (EmptyString, None)
  | String c s' =>
      if Ascii.eqb c "." then (EmptyString, Some s')
      else let (i, f) := split_point s' in (String c i, f)
  end.

Fixpoint pow10 (n : nat) : positive :=
  match n with
  | O => 1%positive
  | S n' => (10 * pow10 n')%positive
  end.

Definition float (s : string) : option Q :=
  let (i, f) := split_point s in
  let fr := match f with Some fr => fr | None => EmptyString end in
  if negb (String.eqb i EmptyString) && all_chars is_digit i && all_chars is_digit fr
  then Some (round64 (Qmake (digits_value (digits_value 0 i) fr)
                            (pow10 (String.length fr))))
  else None.

(** ** Regular expressions *)

Inductive atom : Type :=
| Digit                 (* \d *)
| Space                 (* \s *)
| Lit (c : ascii).      (* a literal character *)

Inductive quant : Type := Once | Opt | Star | Plus.

Inductive item : Type :=
| Rep (q : quant) (a : atom)
| GOpen                 (* ( *)
| GClose.               (* ) *)

Definition regex : Type := list item.

Definition atom_matches (a : atom) (c : ascii) : bool :=
  match a with
  | Digit => is_digit c
  | Space => is_space c
  | Lit d => Ascii.eqb c d
  end.

Definition orelse {A : Type} (x y : option A) : option A :=
  match x with Some _ => x | None => y end.

(** The greedy loop of [x*]: take characters while they match, and on the
    way back offer each stopping point, the longest first, to the rest [k] of
    the pattern. *)
Fixpoint star_loop {A : Type} (a : atom) (k : string -> option A) (s : string)
  : option A :=
  match s with
  | String c s' =>
      if atom_matches a c then orelse (star_loop a k s') (k s) else k s
  | EmptyString => k s
  end.

(** [match_here r s opened caps] matches [r] at the start of [s], trying the
    alternatives in the order of a backtracking engine (a greedy quantifier
    first takes a character, and gives it back when the rest fails).
    [opened] is the text from the last [(] on, [caps] the groups closed so
    far, last first.  The result is the list of captured groups. *)
Fixpoint match_here (r : regex) (s opened : string) (caps : list string)
  : option (list string) :=
  match r with
  | [] => Some (rev caps)
  | GOpen :: r' => match_here r' s s caps
  | GClose :: r' =>
      match_here r' s EmptyString
        (take (String.length opened - String.length s) opened :: caps)
  | Rep q a :: r' =>
      let rest := fun s' => match_here r' s' opened caps in
      match q with
      | Once =>
          match s with
          | String c s' => if atom_matches a c then rest s' else None
          | EmptyString => None
          end
      | Opt =>
          match s with
          | String c s' =>
              if atom_matches a c then orelse (rest s') (rest s) else rest s
          | EmptyString => rest s
          end
      | Star => star_loop a rest s
      | Plus =>
          match s with
          | String c s' => if atom_matches a c then star_loop a rest s' else None
          | EmptyString => None
          end
      end
  end.

(** [re.search(r, s)]: the match at the leftmost position that has one. *)
Fixpoint search (r : regex) (s : string) : option (list string) :=
  match match_here r s EmptyString [] with
  | Some m => Some m
  | None =>
      match s with
      | EmptyString => None
      | String _ s' => search r s'
      end
  end.

(** [m.group(n)], [n >= 1] *)
Definition group (n : nat) (m : list string) : string :=
  nth (n - 1) m EmptyString.

(** The patterns of the sources, written spaced out (as under
    [re.VERBOSE]) next to each definition. *)

(** [\d+ ,? \d* \.? \d*], the body of every dollar amount *)
Definition amount_re : regex :=
  [Rep Plus Digit; Rep Opt (Lit ","); Rep Star Digit; Rep Opt (Lit "."); Rep Star Digit].

(** [( \d+ \.? \d* ) %] *)
Definition pct_re : regex :=
  [GOpen; Rep Plus Digit; Rep Opt (Lit "."); Rep Star Digit; GClose; Rep Once (Lit "%")].

(** [\$ ( \d+ ,? \d* \.? \d* )] *)
Definition dollar_re : regex :=
  (Rep Once (Lit "$") :: GOpen :: amount_re ++ [GClose])%list.

(** [\$ ( \d+ ,? \d* \.? \d* ) \s* - \s* \$ ( \d+ ,? \d* \.? \d* )] *)
Definition range_re : regex :=
  (dollar_re ++ [Rep Star Space; Rep Once (Lit "-"); Rep Star Space] ++ dollar_re)%list.

(** [\$ ( \d+ ,? \d* \.? \d* ) \+] *)
Definition plus_re : regex := (dollar_re ++ [Rep Once (Lit "+")])%list.

(** [( \d+ \.? \d* )] *)
Definition num_re : regex :=
  [GOpen; Rep Plus Digit; Rep Opt (Lit "."); Rep Star Digit; GClose].

(** [( \d+ ,? \d* \.? \d* )] *)
Definition num_comma_re : regex := (GOpen :: amount_re ++ [GClose])%list.

(** ** Numbers, tiers and products *)

Definition Qltb (a b : Q) : bool := negb (Qle_bool b a).

(** The literal [0.01] of the continuity tests. *)
Definition tolerance : Q := round64 (1 # 100).

(** A float that may be [float('inf')]. *)
Inductive bound : Type :=
| Fin (q : Q)
| Inf.

Definition is_inf (b : bound) : bool :=
  match b with Inf => true | Fin _ => false end.

Definition bound_leb (a b : bound) : bool :=
  match a, b with
  | _, Inf => true
  | Inf, Fin _ => false
  | Fin x, Fin y => Qle_bool x y
  end.

(** The dict of one tier: keys ['lower'], ['upper'], ['fee'] and, in
    [enhanced_fee_analysis_step3.py] only, ['original_index'] (absent:
    [None]). *)
Record tier : Type := mkTier {
  lower : Q;
  upper : bound;
  fee : Q;
  tier_index : option nat
}.

(** The dict of one product.  A flat product has ['original_index'] -1 and
    a ['fee'] that may be missing; a tiered product has its ['tiers'] and the
    ['original_index'] it was created with.  The entry ['first_tier_fee'],
    written into each dict before the final sort, is [first_tier_fee]. *)
Inductive product : Type :=
| Flat (flat_fee : option Q)
| Tiered (tiers : list tier) (original_index : nat).

Definition is_tiered (p : product) : bool :=
  match p with Tiered _ _ => true | Flat _ => false end.

Definition is_flat (p : product) : bool :=
  match p with Flat _ => true | Tiered _ _ => false end.

Definition first_tier_fee (p : product) : option bound :=
  match p with
  | Tiered (t :: _) _ => Some (Fin (fee t))
  | Flat f => option_map Fin f
  | Tiered [] _ => Some Inf
  end.

(** The sort key [x['first_tier_fee'] if x['first_tier_fee'] is not None
    else float('inf')]. *)
Definition sort_key (p : product) : bound :=
  match first_tier_fee p with Some b => b | None => Inf end.

(** [list.sort(key=...)] is stable; on a total preorder its result is that
    of this insertion sort. *)
Section StableSort.
Context {A : Type} (leb : A -> A -> bool).

Fixpoint insert (x : A) (l : list A) : list A :=
  match l with
  | [] => [x]
  | y :: l' => if leb x y then x :: l else y :: insert x l'
  end.

Fixpoint sort (l : list A) : list A :=
  match l with
  | [] => []
  | x :: l' => insert x (sort l')
  end.
End StableSort.

(** [products.sort(key=lambda x: ...)] *)
Definition sort_products (ps : list product) : list product :=
  sort (fun p q => bound_leb (sort_key p) (sort_key q)) ps.

(** One input row: the flat-fee columns written by [process_flat_fee] and
    the texts of the eight range columns, in column order (a missing column
    or cell is [None]). *)
Record row : Type := mkRow {
  has_flat_fee : Z;
  flat_fee_value : option Q;
  fee_cells : list (option string)
}.

(** [row[col_i]] for [i = 1..8], with [None] when the column is not in the
    row or the cell is NaN. *)
Definition cell (r : row) (i : nat) : option string :=
  match nth_error (fee_cells r) (i - 1) with
  | Some c => c
  | None => None
  end.

(** What [extract_fee_range] returns: lower bound, upper bound, fee
    percentage, each possibly [None]. *)
Definition extracted : Type := (option Q * option bound * option Q)%type.

(** The part of [extract_fee_range] that both files share: the dollar range
    and the percentage, searched for independently. *)
Definition extract_bounds (s : string) : option Q * option bound :=
  match search range_re s with
  | Some m =>
      (float (remove_commas (group 1 m)),
       option_map Fin (float (remove_commas (group 2 m))))
  | None =>
      match search plus_re s with
      | Some m => (float (remove_commas (group 1 m)), Some Inf)
      | None =>
          match search dollar_re s with
          | Some m => (float (remove_commas (group 1 m)), None)
          | None => (None, None)
          end
      end
  end.

Definition extract_pct (s : string) : option Q :=
  match search pct_re s with
  | Some m => float (group 1 m)
  | None => None
  end.

(** [upper if upper is not None else float('inf')] *)
Definition upper_or_inf (u : option bound) : bound :=
  match u with Some b => b | None => Inf end.

(** The tier walk of [calculate_effective_fee], the same in both files:
    the loop over [product['tiers']] from the state [(total_fee,
    remaining_value)], leaving the loop at [break].  [min(a, b)] is [b] when
    [b < a] and [a] otherwise, which is [Qmin a b]. *)
Fixpoint walk (tiers : list tier) (total_fee remaining_value : Q) : Q * Q :=
  match tiers with
  | [] => (total_fee, remaining_value)
  | t :: rest =>
      if Qle_bool remaining_value 0 then (total_fee, remaining_value)
      else
        match upper t with
        | Inf =>
            let tier_fee := fmul remaining_value (fdiv (fee t) 100) in
            walk rest (fadd total_fee tier_fee) 0
        | Fin u =>
            let tier_value := Qmin (fsub u (lower t)) remaining_value in
            let tier_fee := fmul tier_value (fdiv (fee t) 100) in
            walk rest (fadd total_fee tier_fee) (fsub remaining_value tier_value)
        end
  end.

(** [calculate_effective_fee(products, portfolio_value)], the same in both
    files. *)
Definition calculate_effective_fee (products : list product) (portfolio_value : Q)
  : option Q :=
  match products with
  | [] => None
  | _ =>
      match filter is_tiered products with
      | Tiered tiers _ :: _ =>
          let (total_fee, _) := walk tiers 0 portfolio_value in
          Some (fmul (fdiv total_fee portfolio_value) 100)
      | _ =>
          match filter is_flat products with
          | Flat (Some f) :: _ => Some f
          | _ => None
          end
      end
  end.

(** ** [enhanced_fee_analysis.py] *)

Module Main.

(** [process_flat_fee(fee_str)]: [(has_flat_fee, flat_fee_value)] *)
Definition process_flat_fee (fee_str : option string) : Z * option Q :=
  match fee_str with
  | None => (0%Z, None)
  | Some s =>
      if String.eqb (str_lower s) "no" || strip_is_empty s then (0%Z, None)
      else
        match search pct_re s with
        | Some m => (1%Z, float (group 1 m))
        | None =>
            match search dollar_re s with
            | Some m => (1%Z, float (remove_commas (group 1 m)))
            | None =>
                if in_list (str_lower s) ["yes"; "y"; "true"] then (1%Z, None)
                else
                  match search num_re s with
                  | Some m => (1%Z, float (group 1 m))
                  | None => (1%Z, None)
                  end
            end
        end
  end.

(** [process_minimum_investment(min_inv_str)]:
    [(has_min_inv, min_inv_amount)] *)
Definition process_minimum_investment (min_inv_str : option string) : Z * option Q :=
  match min_inv_str with
  | None => (0%Z, None)
  | Some s =>
      if in_list (str_lower s) ["no"; "n/a"] || strip_is_empty s then (0%Z, None)
      else
        match search dollar_re s with
        | Some m => (1%Z, float (remove_commas (group 1 m)))
        | None =>
            match search num_comma_re s with
            | Some m => (1%Z, float (remove_commas (group 1 m)))
            | None =>
                if in_list (str_lower s) ["yes"; "y"; "true"] then (1%Z, None)
                else (0%Z, None)
            end
        end
  end.

(** [process_negotiable(neg_str)]: [is_negotiable] *)
Definition process_negotiable (neg_str : option string) : Z :=
  match neg_str with
  | None => 0%Z
  | Some s =>
      if strip_is_empty s then 0%Z
      else if in_list (str_lower s) ["yes"; "y"; "true"; "negotiable"] then 1%Z
      else 0%Z
  end.

(** [process_negotiable_threshold(neg_thresh_str)]:
    [(has_neg_thresh, neg_thresh_amount)] *)
Definition process_negotiable_threshold (neg_thresh_str : option string)
  : Z * option Q :=
  match neg_thresh_str with
  | None => (0%Z, None)
  | Some s =>
      if in_list (str_lower s) ["no"; "n/a"] || strip_is_empty s then (0%Z, None)
      else
        match search dollar_re s with
        | Some m => (1%Z, float (remove_commas (group 1 m)))
        | None =>
            match search num_comma_re s with
            | Some m => (1%Z, float (remove_commas (group 1 m)))
            | None => (0%Z, None)
            end
        end
  end.

(** [extract_fee_range(fee_range_str)] *)
Definition extract_fee_range (fee_range_str : option string) : extracted :=
  match fee_range_str with
  | None => (None, None, None)
  | Some s =>
      if String.eqb (str_lower s) "n/a" || strip_is_empty s then (None, None, None)
      else (extract_bounds s, extract_pct s)
  end.

(** [abs(last_tier['upper'] - lower) < 0.01 or
     last_tier['upper'] == float('inf')] *)
Definition continues (last_upper : bound) (lo : Q) : bool :=
  match last_upper with
  | Fin u => Qltb (Qabs (fsub u lo)) tolerance
  | Inf => false
  end || is_inf last_upper.

(** [product['tiers'][-1]['upper']]; a tiered product is created with one
    tier and only ever grows, so the list is never empty. *)
Definition last_upper (ts : list tier) : option bound :=
  match rev ts with
  | t :: _ => Some (upper t)
  | [] => None
  end.

(** The inner [for product in products] loop: the first tiered product
    that the range continues receives it.  [None]: the loop ended with
    [new_product] still true. *)
Fixpoint try_append (products : list product) (t : tier) : option (list product) :=
  match products with
  | [] => None
  | Tiered ts idx :: rest =>
      match last_upper ts with
      | Some u =>
          if continues u (lower t) then Some (Tiered (ts ++ [t]) idx :: rest)
          else option_map (cons (Tiered ts idx)) (try_append rest t)
      | None => option_map (cons (Tiered ts idx)) (try_append rest t)
      end
  | Flat f :: rest => option_map (cons (Flat f)) (try_append rest t)
  end.

(** The body of [if fee is not None and lower is not None], for the tier
    dict [t] that either branch builds. *)
Definition add_tier (products : list product) (t : tier) : list product :=
  match try_append products t with
  | Some products' => products'
  | None => products ++ [Tiered [t] (List.length products)]
  end.

Definition add_range (products : list product) (lo : Q) (up : option bound) (f : Q)
  : list product :=
  add_tier products (mkTier lo (upper_or_inf up) f None).

(** What one extracted range does to the product list. *)
Definition consider (products : list product) (e : extracted) : list product :=
  match e with
  | (Some lo, up, Some f) => add_range products lo up f
  | _ => products
  end.

(** One iteration of [for i in range(1, 9)]. *)
Definition loop_body (products : list product) (c : option string) : list product :=
  match c with
  | Some s =>
      if negb (String.eqb s "N/A") then consider products (extract_fee_range (Some s))
      else products
  | None => products
  end.

(** The product list before the loop. *)
Definition flat_products (r : row) : list product :=
  if (has_flat_fee r =? 1)%Z then [Flat (flat_fee_value r)] else [].

(** The ordering and the returned pair [(len(products), products)]. *)
Definition finish (products : list product) : nat * list product :=
  let sorted := sort_products products in (List.length sorted, sorted).

(** [identify_products(row)] *)
Definition identify_products (r : row) : nat * list product :=
  finish (fold_left (fun ps i => loop_body ps (cell r i)) (seq 1 8) (flat_products r)).

(** The segmenter on ranges that are already extracted, in column order:
    the loop of [identify_products] with [extract_fee_range] taken out. *)
Definition segment (flat : list product) (ranges : list extracted)
  : nat * list product :=
  finish (fold_left consider ranges flat).

End Main.

(** ** [enhanced_fee_analysis_step3.py] *)

Module Step3.

(** [extract_fee_range(fee_range_str)] *)
Definition extract_fee_range (fee_range_str : option string) : extracted :=
  match fee_range_str with
  | None => (None, None, None)
  | Some s =>
      if String.eqb s "" || in_list (str_lower s) ["n/a"; "na"; "-1"]
      then (None, None, None)
      else (extract_bounds s, extract_pct s)
  end.

(** [abs(fee_range['lower'] - last_upper) < 0.01 or
     last_upper == float('inf')] *)
Definition continues (lo : Q) (last_upper : bound) : bool :=
  match last_upper with
  | Fin u => Qltb (Qabs (fsub lo u)) tolerance
  | Inf => false
  end || is_inf last_upper.

(** The entry appended to [fee_ranges] for column [i], if any. *)
Definition fee_range (i : nat) (e : extracted) : list tier :=
  match e with
  | (Some lo, up, Some f) => [mkTier lo (upper_or_inf up) f (Some (i - 1)%nat)]
  | _ => []
  end.

(** [fee_ranges.sort(key=lambda x: x['lower'])] *)
Definition sort_ranges (fee_ranges : list tier) : list tier :=
  sort (fun a b => Qle_bool (lower a) (lower b)) fee_ranges.

(** The loop [for fee_range in fee_ranges[1:]].  [current_product] is the
    last element of [products]; here [products] is [closed] followed by the
    tiered product with tiers [cur] and index [cur_idx]. *)
Fixpoint group_ranges (closed : list product) (cur : list tier) (cur_idx : nat)
    (last_upper : bound) (rest : list tier) : list product :=
  match rest with
  | [] => closed ++ [Tiered cur cur_idx]
  | fr :: rest' =>
      if continues (lower fr) last_upper
      then group_ranges closed (cur ++ [fr]) cur_idx (upper fr) rest'
      else group_ranges (closed ++ [Tiered cur cur_idx]) [fr]
             (List.length closed + 1)%nat (upper fr) rest'
  end.

(** [if fee_ranges: ...] *)
Definition group_products (products : list product) (fee_ranges : list tier)
  : list product :=
  match sort_ranges fee_ranges with
  | [] => products
  | first :: rest => group_ranges products [first] 0 (upper first) rest
  end.

Definition flat_products (r : row) : list product :=
  match flat_fee_value r with
  | Some v => if (has_flat_fee r =? 1)%Z then [Flat (Some v)] else []
  | None => []
  end.

Definition finish (products : list product) : nat * list product :=
  let sorted := sort_products products in (List.length sorted, sorted).

(** [identify_products(row)] *)
Definition identify_products (r : row) : nat * list product :=
  finish (group_products (flat_products r)
            (flat_map (fun i => fee_range i (extract_fee_range (cell r i))) (seq 1 8))).

(** The segmenter on ranges that are already extracted; the range at
    position [k] of the list is that of column [k + 1]. *)
Definition segment (flat : list product) (ranges : list extracted)
  : nat * list product :=
  finish (group_products flat
            (flat_map (fun ie => fee_range (fst ie) (snd ie))
               (combine (seq 1 (List.length ranges)) ranges))).

End Step3.

(** ** The tier walk in binary64

    The same walk on IEEE 754 double-precision floats, the arithmetic
    Python runs it in; used to check that a result stated on rationals is
    also what the rounded computation yields. *)

Module Binary64.

Import PrimFloat.

Record tier64 : Type := mkTier64 {
  lower64 : PrimFloat.float;
  upper64 : PrimFloat.float;
  fee64 : PrimFloat.float
}.

(** [min(a, b)]: [b] when [b < a], else [a]. *)
Definition min (a b : PrimFloat.float) : PrimFloat.float :=
  if ltb b a then b else a.

Fixpoint walk (tiers : list tier64) (total_fee remaining_value : PrimFloat.float)
  : PrimFloat.float * PrimFloat.float :=
  match tiers with
  | [] => (total_fee, remaining_value)
  | t :: rest =>
      if leb remaining_value 0%float then (total_fee, remaining_value)
      else if eqb (upper64 t) infinity then
        let tier_fee := mul remaining_value (div (fee64 t) 100%float) in
        walk rest (add total_fee tier_fee) 0%float
      else
        let tier_value := min (sub (upper64 t) (lower64 t)) remaining_value in
        let tier_fee := mul tier_value (div (fee64 t) 100%float) in
        walk rest (add total_fee tier_fee) (sub remaining_value tier_value)
  end.

(** [(total_fee / portfolio_value) * 100] for a tiered product. *)
Definition effective_fee (tiers : list tier64) (portfolio_value : PrimFloat.float)
  : PrimFloat.float :=
  let (total_fee, _) := walk tiers 0%float portfolio_value in
  mul (div total_fee portfolio_value) 100%float.

Definition three_tiers : list tier64 :=
  [mkTier64 0%float 1000000%float 1%float;
   mkTier64 1000000%float 5000000%float 0.75%float;
   mkTier64 5000000%float infinity 0.5%float].

(** The effective fee of [three_tiers] is 1.0 at 1 000 000 and 0.75 at
    6 000 000, compared with [==] on floats. *)
Definition three_tiers_fees_exact : bool :=
  eqb (effective_fee three_tiers 1000000%float) 1%float
  && eqb (effective_fee three_tiers 6000000%float) 0.75%float.

End Binary64.

(** ** [extract_adviser_info] of [enhanced_fee_analysis.py] *)

Module Adviser.

(** A sequence of literal characters. *)
Fixpoint lits (s : string) : regex :=
  match s with
  | EmptyString => []
  | String c s' => Rep Once (Lit c) :: lits s'
  end.

(** The backslash that separates directory and file name. *)
Definition backslash : ascii := ascii_of_nat 92.

(** [( \d+ )] *)
Definition digits_group : regex := [GOpen; Rep Plus Digit; GClose].

(** The pattern of [extract_adviser_info]: the directory name
    [formadv_part2_1_extracted], a backslash, four groups of digits each
    followed by an underscore, and [fees_section]. *)
Definition filename_re : regex :=
  lits "formadv_part2_1_extracted" ++ [Rep Once (Lit backslash)]
  ++ digits_group ++ lits "_" ++ digits_group ++ lits "_"
  ++ digits_group ++ lits "_" ++ digits_group ++ lits "_fees_section".

(** [int(text)] on a capture of digits (Python integers are unbounded; the
    limit of 4300 digits that recent versions put on the conversion is not
    modelled). *)
Definition int (s : string) : Z := digits_value 0 s.

(** A [datetime] at midnight. *)
Record date : Type := mkDate {
  year : Z;
  month : Z;
  day : Z
}.

Definition leap_year (y : Z) : bool :=
  ((y mod 4 =? 0) && negb (y mod 100 =? 0) || (y mod 400 =? 0))%Z.

Definition days_in_month (y m : Z) : Z :=
  if (m =? 2)%Z then (if leap_year y then 29%Z else 28%Z)
  else if ((m =? 4) || (m =? 6) || (m =? 9) || (m =? 11))%Z then 30%Z
  else 31%Z.

(** [datetime.strptime(date_str, '%Y%m%d')] on a text of eight digits, the
    only texts the code passes to it: four digits of year, two of month, two
    of day.  [None] where Python raises [ValueError]: a month outside 01..12,
    a day outside the month, the year 0000. *)
Definition strptime (date_str : string) : option date :=
  let y := int (substring 0 4 date_str) in
  let m := int (substring 4 2 date_str) in
  let d := int (substring 6 2 date_str) in
  if ((1 <=? y) && (1 <=? m) && (m <=? 12) && (1 <=? d) && (d <=? days_in_month y m))%Z
  then Some (mkDate y m d)
  else None.

(** The dict that [extract_adviser_info] returns. *)
Record adviser_info : Type := mkInfo {
  adviser_id1 : option Z;
  adviser_id2 : option Z;
  sequence_num : option Z;
  filing_date : option date
}.

(** The function returns a dict, or leaves with the [ValueError] of
    [strptime]. *)
Inductive outcome : Type :=
| Returned (info : adviser_info)
| Raised.

(** [extract_adviser_info(filename)] *)
Definition extract_adviser_info (filename : string) : outcome :=
  match search filename_re filename with
  | Some m =>
      let adviser_id1 := int (group 1 m) in
      let adviser_id2 := int (group 2 m) in
      let sequence_num := int (group 3 m) in
      let date_str := group 4 m in
      if (String.length date_str =? 8)%nat then
        match strptime date_str with
        | Some filing_date =>
            Returned (mkInfo (Some adviser_id1) (Some adviser_id2) (Some sequence_num)
                        (Some filing_date))
        | None => Raised
        end
      else
        Returned (mkInfo (Some adviser_id1) (Some adviser_id2) (Some sequence_num) None)
  | None => Returned (mkInfo None None None None)
  end.

End Adviser.

(** ** The row pipeline of [process_csv_file] and the row tests after it *)

Module Csv.

(** The text columns of one input row that the pipeline reads. *)
Record raw_row : Type := mkRaw {
  flat_rate : option string;
  fee_ranges : list (option string);
  minimum_investment : option string;
  negotiable : option string;
  negotiable_threshold : option string
}.

(** The row as [identify_products] sees it: the two flat-fee columns and the
    eight range columns (a value [None] of [process_flat_fee] is a missing
    cell of the column). *)
Definition flat_fee_row (raw : raw_row) : row :=
  mkRow (fst (Main.process_flat_fee (flat_rate raw)))
        (snd (Main.process_flat_fee (flat_rate raw)))
        (fee_ranges raw).

(** [extracted_count]: the range cells that are neither missing nor
    'N/A'. *)
Definition extracted_count (r : row) : nat :=
  List.length
    (filter (fun i =>
               match cell r i with
               | Some s => negb (String.eqb s "N/A")
               | None => false
               end) (seq 1 8)).

(** [get_first_tier_fee(products)] *)
Fixpoint get_first_tier_fee (products : list product) : option Q :=
  match products with
  | [] => None
  | Tiered (t :: _) _ :: _ => Some (fee t)
  | Flat f :: _ => f
  | Tiered [] _ :: rest => get_first_tier_fee rest
  end.

(** [get_product3_first_tier_fee(products)] *)
Definition get_product3_first_tier_fee (products : list product) : option Q :=
  if (List.length products <? 3)%nat then None
  else
    match nth_error products 2 with
    | Some (Tiered (t :: _) _) => Some (fee t)
    | Some (Flat f) => f
    | _ => None
    end.

(** The columns [process_csv_file] derives from the products of a row. *)
Record derived : Type := mkDerived {
  product_count : nat;
  products : list product;
  effective_fee_1M : option Q;
  effective_fee_5M : option Q;
  first_tier_fee_product1 : option Q;
  first_tier_fee_product3 : option Q
}.

Definition derive (r : row) : derived :=
  let (count, ps) := Main.identify_products r in
  mkDerived count ps
    (calculate_effective_fee ps 1000000)
    (calculate_effective_fee ps 5000000)
    (get_first_tier_fee ps)
    (get_product3_first_tier_fee ps).

(** [has_fee_info] of [clean_and_consolidate_data]:
    [row['has_flat_fee'] == 1 or row['product_count'] > 0] *)
Definition has_fee_info (has_flat : Z) (count : nat) : bool :=
  (has_flat =? 1)%Z || (0 <? count)%nat.

(** The outlier filter of [clean_and_consolidate_data]: a row goes when its
    [first_tier_fee_product1] is above 5 or equal to 0; a missing value
    compares false and stays. *)
Definition survives (first_tier_fee_product1 : option Q) : bool :=
  match first_tier_fee_product1 with
  | Some f => negb (Qltb 5 f || Qeq_bool f 0)
  | None => true
  end.

(** [contract_type] of [create_visualizations] *)
Definition contract_type (has_flat : Z) (count : nat) : string :=
  if (has_flat =? 1)%Z && (count =? 0)%nat then "Flat Fee Only"
  else if (has_flat =? 0)%Z && (0 <? count)%nat then "AUM-Based Only"
  else if (has_flat =? 1)%Z && (0 <? count)%nat then "Both"
  else "No Fee Info".

End Csv.

(** ** Vocabulary of the properties *)

(** A range as the segmenter receives it once extraction found all three
    fields. *)
Definition range (lo : Q) (up : bound) (f : Q) : extracted :=
  (Some lo, Some up, Some f).





(** Ranges of which the second is appended after an unbounded tier and
    leaves the product bounded again. *)
Definition reopening_ranges : list extracted :=
  [range 0 Inf 1; range 0 (Fin 10) 1; range 500 (Fin 600) 1].

(** The ranges of a contiguous three-tier schedule. *)
Definition contiguous_ranges : list extracted :=
  [range 0 (Fin 1000000) 1; range 1000000 (Fin 5000000) (3 # 4);
   range 5000000 Inf (1 # 2)].

(** Its tiers, with whatever bookkeeping indices they carry. *)
Definition three_tiers (i1 i2 i3 : option nat) : list tier :=
  [mkTier 0 (Fin 1000000) 1 i1; mkTier 1000000 (Fin 5000000) (3 # 4) i2;
   mkTier 5000000 Inf (1 # 2) i3].

(** The amounts the tier walk charges, one per executed iteration: the
    [tier_value] of a bounded tier, the whole remaining value at an
    unbounded one. *)
Fixpoint tier_values (tiers : list tier) (remaining_value : Q) : list Q :=
  match tiers with
  | [] => []
  | t :: rest =>
      if Qle_bool remaining_value 0 then []
      else
        match upper t with
        | Inf => remaining_value :: tier_values rest 0
        | Fin u =>
            let tier_value := Qmin (fsub u (lower t)) remaining_value in
            tier_value :: tier_values rest (fsub remaining_value tier_value)
        end
  end.

(** The exact sum of a list of numbers. *)
Definition Qsum (l : list Q) : Q := fold_right Qplus 0 l.

(** A natural number as a rational, and a power with a natural exponent. *)
Definition count (n : nat) : Q := inject_Z (Z.of_nat n).




(** A schedule with a gap of one cent between its tiers, as read from
    "$0 - $99999.99" and "$100000+". *)
Definition gap_tiers : list tier :=
  [mkTier 0 (Fin (round64 (9999999 # 100))) 1 None; mkTier 100000 Inf 1 None].

(** A schedule of one unbounded tier at 0.35%. *)
Definition single_tier : list tier := [mkTier 0 Inf (round64 (7 # 20)) None].


Definition max_tier_rate (ts : list tier) : Q :=
  match ts with
  | [] => 0
  | t :: ts' => fold_left (fun m t' => Qmax m (fee t')) ts' (fee t)
  end.




(** A schedule whose first tier ends below its start. *)
Definition inverted_tiers : list tier :=
  [mkTier 10 (Fin 5) 1 None; mkTier 5 Inf 2 None].


(** A pattern that cannot match without reading a digit. *)
Definition needs_digit (r : regex) : bool :=
  existsb (fun it =>
             match it with
             | Rep Once Digit | Rep Plus Digit => true
             | _ => false
             end) r.

(** The texts the amount pattern can capture: digits, at most one comma
    with digits after it, at most one point with digits after it. *)
Definition digits (p : string) : Prop := all_chars is_digit p = true.

Definition amount_shape (cap : string) : Prop :=
  exists c p1 pc p2 pp p3,
    cap = String c (p1 ++ pc ++ p2 ++ pp ++ p3)%string
    /\ is_digit c = true /\ digits p1
    /\ (pc = "" \/ pc = ",") /\ digits p2
    /\ (pp = "" \/ pp = ".") /\ digits p3.

(** A text without a decimal digit. *)
Definition no_digit (s : string) : Prop := any_char is_digit s = false.

(** The tokens the normalizers read as a bare affirmation. *)
Definition yes_tokens : list string := ["yes"; "y"; "true"].

(** The product set without its bookkeeping: the ['original_index'] entries
    of products and tiers are erased. *)
Definition plain_tier (t : tier) : tier := mkTier (lower t) (upper t) (fee t) None.

Definition plain (p : product) : product :=
  match p with
  | Flat f => Flat f
  | Tiered ts _ => Tiered (map plain_tier ts) 0
  end.

(** The tier an extracted range is kept as, if it is kept: it needs a lower
    bound and a fee percent. *)
Definition kept (e : extracted) : list tier :=
  match e with
  | (Some lo, up, Some f) => [mkTier lo (upper_or_inf up) f None]
  | _ => []
  end.

(** The ranges [identify_products] of [enhanced_fee_analysis.py] keeps, in
    column order. *)
Definition retained (r : row) : list tier :=
  flat_map (fun i => kept (Main.extract_fee_range (cell r i))) (seq 1 8).

(** A text without a dollar sign. *)
Definition is_dollar (c : ascii) : bool := Ascii.eqb c "$".

Definition no_dollar (s : string) : Prop := any_char is_dollar s = false.



(** Rows used as examples; their amounts carry no thousands separators. *)
Definition restart_row : row :=
  mkRow 0 None
    [Some "$0 - $500000 (1.2%)"; Some "$500000+ (1.0%)"; Some "$0 - $1000000 (0.8%)";
     Some "N/A"; Some "N/A"; Some "N/A"; Some "N/A"; Some "N/A"].

Definition contiguous_row : row :=
  mkRow 0 None
    [Some "$0 - $1000000 (1.0%)"; Some "$1000000 - $5000000 (0.75%)";
     Some "$5000000+ (0.5%)"; None; None; None; None; None].

(** An item that must read one character, and only reads characters for
    which [bad] holds. *)
Definition item_needs (bad : ascii -> bool) (it : item) : Prop :=
  exists q a, it = Rep q a /\ (q = Once \/ q = Plus)
              /\ forall ch, atom_matches a ch = true -> bad ch = true.

(** A pattern every item of which can match the empty text. *)
Definition nullable (r : regex) : bool :=
  forallb (fun it =>
             match it with
             | Rep Opt _ | Rep Star _ | GOpen | GClose => true
             | _ => false
             end) r.


(** The tiers of a product, and of a product list in list order. *)
Definition tiers_of (p : product) : list tier :=
  match p with
  | Tiered ts _ => ts
  | Flat _ => []
  end.

Definition all_tiers (ps : list product) : list tier := flat_map tiers_of ps.

(** Each tier continues the one before it: its lower bound is within 0.01
    of the previous upper bound, or the previous upper bound is unbounded. *)
Fixpoint continues_from (prev : tier) (ts : list tier) : bool :=
  match ts with
  | [] => true
  | t :: ts' => Main.continues (upper prev) (lower t) && continues_from t ts'
  end.

(** A product as the segmenters build it: a flat fee, or at least one tier
    and every further tier continuing the one before. *)
Definition well_formed (p : product) : bool :=
  match p with
  | Flat _ => true
  | Tiered [] _ => false
  | Tiered (t :: ts) _ => continues_from t ts
  end.

(** Products in ascending order of their sort key. *)
Fixpoint ascending_from (prev : product) (ps : list product) : bool :=
  match ps with
  | [] => true
  | p :: ps' => bound_leb (sort_key prev) (sort_key p) && ascending_from p ps'
  end.

Definition ascending (ps : list product) : bool :=
  match ps with
  | [] => true
  | p :: ps' => ascending_from p ps'
  end.



(** The ranges [identify_products] of [enhanced_fee_analysis_step3.py]
    collects, in column order. *)
Definition step3_ranges (r : row) : list tier :=
  flat_map (fun i => Step3.fee_range i (Step3.extract_fee_range (cell r i))) (seq 1 8).

(** Tiers in ascending order of their lower bound. *)
Fixpoint lower_ascending_from (prev : tier) (ts : list tier) : bool :=
  match ts with
  | [] => true
  | t :: ts' => Qle_bool (lower prev) (lower t) && lower_ascending_from t ts'
  end.

Definition lower_ascending (ts : list tier) : bool :=
  match ts with
  | [] => true
  | t :: ts' => lower_ascending_from t ts'
  end.

(** A file name in the documented form: the directory, four numerals
    separated by underscores, [_fees_section] and any ending. *)
Definition adviser_filename (id1 id2 seq_num date_str ending : string) : string :=
  ("formadv_part2_1_extracted" ++ String Adviser.backslash id1 ++ "_" ++ id2 ++ "_"
   ++ seq_num ++ "_" ++ date_str ++ "_fees_section" ++ ending)%string.

(** A numeral: one or more decimal digits. *)
Definition numeral (s : string) : bool :=
  negb (String.eqb s "") && all_chars is_digit s.

(** * Properties *)

(** Division by 100 as a multiplication, which linear arithmetic accepts. *)
Ltac hundredths :=
  unfold Qdiv in *; change (/ 100) with (1 # 100) in *.

(** ** Binary64 rounding

    The exponent [ilog2] is the one of the definition, rounding to the
    nearest integer errs by at most one half, and from these: [round64] errs
    by at most [ulp] relative to its argument, is monotone, keeps the sign and
    leaves a float unchanged. *)

Lemma pow2_pos (e : Z) : 0 < 2 ^ e.
Proof. apply Qpower_0_lt. reflexivity. Qed.

Lemma pow2_plus (a b : Z) : 2 ^ (a + b) == 2 ^ a * 2 ^ b.
Proof. apply Qpower_plus. discriminate. Qed.

Lemma pow2_succ (a : Z) : 2 ^ (a + 1) == 2 * 2 ^ a.
Proof. rewrite pow2_plus. change (2 ^ 1) with 2. ring. Qed.

Lemma pow2_le (a b : Z) : (a <= b)%Z -> 2 ^ a <= 2 ^ b.
Proof. intros H. apply Qpower_le_compat_l; [exact H|discriminate]. Qed.


Lemma pow2_lt_inv (a b : Z) : 2 ^ a < 2 ^ b -> (a < b)%Z.
Proof. intros H. apply (Qpower_lt_compat_l_inv 2); [exact H|reflexivity]. Qed.

Lemma pow2_inject (a : Z) : (0 <= a)%Z -> inject_Z (2 ^ a) == 2 ^ a.
Proof. intros H. now rewrite Zpower_Qpower. Qed.

Lemma Qabs_ratio (x : Q) :
  Qabs x * inject_Z (Zpos (Qden x)) == inject_Z (Z.abs (Qnum x)).
Proof.
  destruct x as [n d]. simpl Qabs. simpl Qnum. simpl Qden.
  rewrite (Qmake_Qdiv (Z.abs n) d). field.
  discriminate.
Qed.

Lemma ilog2_spec (x : Q) :
  ~ x == 0 -> 2 ^ ilog2 x <= Qabs x /\ Qabs x < 2 ^ (ilog2 x + 1).
Proof.
  intros Hx. unfold ilog2.
  pose proof (Qabs_ratio x) as HX. pose proof (Qabs_nonneg x) as HX0.
  remember (Z.abs (Qnum x)) as n eqn:En. remember (Zpos (Qden x)) as d eqn:Ed.
  assert (Hn : (0 < n)%Z).
  { subst n. destruct x as [[|p|p] q]; simpl; try lia. exfalso. apply Hx. reflexivity. }
  assert (Hd : (0 < d)%Z) by (subst d; lia).
  clear En Ed.
  pose proof (Z.log2_spec n Hn) as [Hn1 Hn2].
  pose proof (Z.log2_spec d Hd) as [Hd1 Hd2].
  pose proof (Z.log2_nonneg n) as Ha. pose proof (Z.log2_nonneg d) as Hb.
  remember (Z.log2 n) as a eqn:Ea. remember (Z.log2 d) as b eqn:Eb. clear Ea Eb.
  assert (HN1 : 2 ^ a <= inject_Z n).
  { rewrite <- pow2_inject by assumption. now rewrite <- Zle_Qle. }
  assert (HN2 : inject_Z n < 2 * 2 ^ a).
  { rewrite <- pow2_succ, <- pow2_inject by lia. now rewrite <- Zlt_Qlt. }
  assert (HD1 : 2 ^ b <= inject_Z d).
  { rewrite <- pow2_inject by assumption. now rewrite <- Zle_Qle. }
  assert (HD2 : inject_Z d < 2 * 2 ^ b).
  { rewrite <- pow2_succ, <- pow2_inject by lia. now rewrite <- Zlt_Qlt. }
  assert (HK : 2 ^ (a - b) * 2 ^ b == 2 ^ a).
  { rewrite <- pow2_plus. now replace (a - b + b)%Z with a by ring. }
  assert (HK2 : 2 * 2 ^ (a - b - 1) == 2 ^ (a - b)).
  { rewrite <- pow2_succ. now replace (a - b - 1 + 1)%Z with (a - b)%Z by ring. }
  pose proof (pow2_pos a) as Pa. pose proof (pow2_pos b) as Pb.
  pose proof (pow2_pos (a - b)) as Pk. pose proof (pow2_pos (a - b - 1)) as Pk1.
  remember (Qabs x) as X eqn:EX. remember (inject_Z n) as N eqn:EN.
  remember (inject_Z d) as D eqn:ED. clear EX EN ED Hn1 Hn2 Hd1 Hd2.
  destruct (Qle_bool (2 ^ (a - b)) X) eqn:E.
  - apply Qle_bool_iff in E. split; [exact E|].
    rewrite pow2_succ.
    remember (2 ^ (a - b)) as K eqn:EK. remember (2 ^ a) as A eqn:EA.
    remember (2 ^ b) as B eqn:EB. clear EK EA EB.
    nra.
  - assert (E' : X < 2 ^ (a - b)).
    { apply Qnot_le_lt. intros H. apply Qle_bool_iff in H. congruence. }
    replace (a - b - 1 + 1)%Z with (a - b)%Z by ring.
    split; [|exact E'].
    remember (2 ^ (a - b - 1)) as K1 eqn:EK1.
    remember (2 ^ (a - b)) as K eqn:EK. remember (2 ^ a) as A eqn:EA.
    remember (2 ^ b) as B eqn:EB. clear EK EA EB EK1.
    nra.
Qed.

Lemma ilog2_unique (x : Q) (a : Z) :
  2 ^ a <= Qabs x -> Qabs x < 2 ^ (a + 1) -> ilog2 x = a.
Proof.
  intros H1 H2.
  assert (Hx : ~ x == 0).
  { intros E. rewrite E in H1. pose proof (pow2_pos a). simpl in H1. lra. }
  destruct (ilog2_spec x Hx) as [L1 L2].
  assert (A : (ilog2 x < a + 1)%Z) by (apply pow2_lt_inv; lra).
  assert (B : (a < ilog2 x + 1)%Z) by (apply pow2_lt_inv; lra).
  lia.
Qed.

(** *** Rounding to the nearest integer, ties to even *)

Lemma rne_cases (y : Q) :
  (rne y = Qfloor y /\ y - inject_Z (Qfloor y) <= 1 # 2)
  \/ (rne y = (Qfloor y + 1)%Z /\ 1 # 2 <= y - inject_Z (Qfloor y)).
Proof.
  unfold rne. destruct (Qcompare_spec (y - inject_Z (Qfloor y)) (1 # 2)) as [E|E|E].
  - destruct (Z.even (Qfloor y)); [left|right]; (split; [reflexivity|lra]).
  - left. split; [reflexivity|lra].
  - right. split; [reflexivity|lra].
Qed.

Lemma floor_bounds (y : Q) :
  inject_Z (Qfloor y) <= y /\ y < inject_Z (Qfloor y) + 1.
Proof.
  split; [apply Qfloor_le|].
  pose proof (Qlt_floor y) as H. rewrite inject_Z_plus in H. exact H.
Qed.


Lemma rne_Z (z : Z) : rne (inject_Z z) = z.
Proof.
  unfold rne. rewrite Qfloor_Z.
  assert (E : Qcompare (inject_Z z - inject_Z z) (1 # 2) = Lt).
  { apply (proj1 (Qlt_alt _ _)). remember (inject_Z z) as q. lra. }
  now rewrite E.
Qed.

#[export] Instance rne_comp : Proper (Qeq ==> eq) rne.
Proof.
  intros a b E. unfold rne. rewrite (Qfloor_comp a b E).
  assert (E' : a - inject_Z (Qfloor b) == b - inject_Z (Qfloor b)) by lra.
  now rewrite E'.
Qed.

Lemma rne_mono (a b : Q) : a <= b -> (rne a <= rne b)%Z.
Proof.
  intros H.
  pose proof (Qfloor_resp_le a b H) as F.
  destruct (floor_bounds a) as [A1 A2]. destruct (floor_bounds b) as [B1 B2].
  destruct (Z.eq_dec (Qfloor a) (Qfloor b)) as [E|N].
  - unfold rne. rewrite E in *.
    destruct (Qcompare_spec (a - inject_Z (Qfloor b)) (1 # 2)) as [Ca|Ca|Ca];
      destruct (Qcompare_spec (b - inject_Z (Qfloor b)) (1 # 2)) as [Cb|Cb|Cb];
      try (exfalso; lra); destruct (Z.even (Qfloor b)); lia.
  - destruct (rne_cases a) as [[-> _]|[-> _]]; destruct (rne_cases b) as [[-> _]|[-> _]]; lia.
Qed.

(** *** Rounding a positive number *)

Lemma scaled_range (x : Q) :
  0 < x ->
  2 ^ 52 <= x / 2 ^ (ilog2 x - 52) /\ x / 2 ^ (ilog2 x - 52) < 2 ^ 53.
Proof.
  intros Hx.
  destruct (ilog2_spec x) as [L1 L2]; [lra|].
  rewrite Qabs_pos in L1, L2 by lra.
  pose proof (pow2_pos (ilog2 x - 52)) as P.
  assert (E1 : 2 ^ ilog2 x == 2 ^ 52 * 2 ^ (ilog2 x - 52)).
  { rewrite <- pow2_plus. now replace (52 + (ilog2 x - 52))%Z with (ilog2 x) by ring. }
  assert (E2 : 2 ^ (ilog2 x + 1) == 2 ^ 53 * 2 ^ (ilog2 x - 52)).
  { rewrite <- pow2_plus. now replace (53 + (ilog2 x - 52))%Z with (ilog2 x + 1)%Z by ring. }
  split.
  - apply Qle_shift_div_l; [exact P|]. lra.
  - apply Qlt_shift_div_r; [exact P|]. lra.
Qed.

Lemma round_pos_eq (x : Q) :
  round_pos x == inject_Z (rne (x / 2 ^ (ilog2 x - 52))) * 2 ^ (ilog2 x - 52).
Proof. unfold round_pos. apply Qred_correct. Qed.

Lemma rne_scaled_range (x : Q) :
  0 < x ->
  2 ^ 52 <= inject_Z (rne (x / 2 ^ (ilog2 x - 52)))
  /\ inject_Z (rne (x / 2 ^ (ilog2 x - 52))) <= 2 ^ 53.
Proof.
  intros Hx. destruct (scaled_range x Hx) as [S1 S2].
  split.
  - change (2 ^ 52) with (inject_Z (2 ^ 52)). rewrite <- Zle_Qle.
    rewrite <- (rne_Z (2 ^ 52)). apply rne_mono. exact S1.
  - change (2 ^ 53) with (inject_Z (2 ^ 53)). rewrite <- Zle_Qle.
    rewrite <- (rne_Z (2 ^ 53)). apply rne_mono. apply Qlt_le_weak. exact S2.
Qed.


Lemma round_pos_pos (x : Q) : 0 < x -> 0 < round_pos x.
Proof.
  intros Hx. rewrite round_pos_eq.
  destruct (rne_scaled_range x Hx) as [N1 _].
  pose proof (pow2_pos (ilog2 x - 52)) as P.
  change (2 ^ 52) with (4503599627370496 # 1) in N1.
  nra.
Qed.

Lemma ilog2_comp (x y : Q) : ~ x == 0 -> x == y -> ilog2 x = ilog2 y.
Proof.
  intros Hx E. destruct (ilog2_spec x Hx) as [L1 L2].
  symmetry. apply ilog2_unique; rewrite <- E; assumption.
Qed.

Lemma round_pos_comp (x y : Q) : 0 < x -> x == y -> round_pos x = round_pos y.
Proof.
  intros Hx E. unfold round_pos.
  rewrite <- (ilog2_comp x y) by (assumption || lra).
  apply Qred_complete.
  generalize (ilog2 x - 52)%Z. intros e. now rewrite E.
Qed.

#[export] Instance round64_comp : Proper (Qeq ==> eq) round64.
Proof.
  intros x y E. unfold round64.
  assert (C : Qcompare y 0 = Qcompare x 0) by now rewrite E.
  rewrite C.
  destruct (Qcompare_spec x 0) as [H|H|H]; [reflexivity| |].
  - f_equal. apply round_pos_comp; lra.
  - apply round_pos_comp; [lra|exact E].
Qed.

Lemma ilog2_le (x y : Q) : 0 < x -> x <= y -> (ilog2 x <= ilog2 y)%Z.
Proof.
  intros Hx H.
  destruct (ilog2_spec x) as [X1 X2]; [lra|].
  destruct (ilog2_spec y) as [Y1 Y2]; [lra|].
  rewrite Qabs_pos in X1, X2, Y1, Y2 by lra.
  assert (A : (ilog2 x < ilog2 y + 1)%Z) by (apply pow2_lt_inv; lra).
  lia.
Qed.

Lemma round_pos_mono (x y : Q) : 0 < x -> x <= y -> round_pos x <= round_pos y.
Proof.
  intros Hx H. rewrite (round_pos_eq x), (round_pos_eq y).
  pose proof (ilog2_le x y Hx H) as L.
  destruct (rne_scaled_range x Hx) as [_ X2].
  destruct (rne_scaled_range y) as [Y1 _]; [lra|].
  pose proof (pow2_pos (ilog2 x - 52)) as Px. pose proof (pow2_pos (ilog2 y - 52)) as Py.
  destruct (Z.eq_dec (ilog2 x) (ilog2 y)) as [E|N].
  - rewrite E in *.
    assert (M : (rne (x / 2 ^ (ilog2 y - 52)) <= rne (y / 2 ^ (ilog2 y - 52)))%Z).
    { apply rne_mono. apply Qmult_le_compat_r; [exact H|].
      apply Qlt_le_weak, Qinv_lt_0_compat, Py. }
    apply Qmult_le_compat_r; [|lra]. now rewrite <- Zle_Qle.
  - assert (B : 2 ^ 53 * 2 ^ (ilog2 x - 52) <= 2 ^ 52 * 2 ^ (ilog2 y - 52)).
    { rewrite <- !pow2_plus. apply pow2_le. lia. }
    apply Qle_trans with (2 ^ 53 * 2 ^ (ilog2 x - 52)).
    + apply Qmult_le_compat_r; [exact X2|lra].
    + apply Qle_trans with (2 ^ 52 * 2 ^ (ilog2 y - 52)); [exact B|].
      apply Qmult_le_compat_r; [exact Y1|lra].
Qed.




(** *** Rounding any number *)

Lemma round64_of_pos (x : Q) : 0 < x -> round64 x = round_pos x.
Proof.
  intros H. unfold round64.
  destruct (Qcompare_spec x 0) as [E|E|E]; [lra|lra|reflexivity].
Qed.

Lemma round64_of_neg (x : Q) : x < 0 -> round64 x = - round_pos (- x).
Proof.
  intros H. unfold round64.
  destruct (Qcompare_spec x 0) as [E|E|E]; [lra|reflexivity|lra].
Qed.

Lemma round64_of_zero (x : Q) : x == 0 -> round64 x = 0.
Proof.
  intros H. unfold round64.
  destruct (Qcompare_spec x 0) as [E|E|E]; [reflexivity|lra|lra].
Qed.

Lemma round64_opp (x : Q) : round64 (- x) == - round64 x.
Proof.
  destruct (Qcompare_spec x 0) as [E|E|E].
  - rewrite (round64_of_zero x E), (round64_of_zero (- x)) by lra. reflexivity.
  - rewrite (round64_of_neg x E), (round64_of_pos (- x)) by lra. ring.
  - rewrite (round64_of_pos x E), (round64_of_neg (- x)) by lra.
    rewrite (round_pos_comp (- - x) x) by lra. reflexivity.
Qed.

Lemma round64_pos (x : Q) : 0 < x -> 0 < round64 x.
Proof. intros H. rewrite (round64_of_pos x H). now apply round_pos_pos. Qed.

Lemma round64_neg (x : Q) : x < 0 -> round64 x < 0.
Proof.
  intros H. rewrite (round64_of_neg x H).
  pose proof (round_pos_pos (- x)). lra.
Qed.

Lemma round64_nonneg (x : Q) : 0 <= x -> 0 <= round64 x.
Proof.
  intros H. destruct (Qcompare_spec x 0) as [E|E|E]; [|lra|].
  - rewrite (round64_of_zero x E). lra.
  - apply Qlt_le_weak, round64_pos, E.
Qed.

Lemma round64_zero_inv (x : Q) : round64 x == 0 -> x == 0.
Proof.
  intros H. destruct (Qcompare_spec x 0) as [E|E|E]; [exact E| |].
  - pose proof (round64_neg x E). lra.
  - pose proof (round64_pos x E). lra.
Qed.




Lemma round64_mono (x y : Q) : x <= y -> round64 x <= round64 y.
Proof.
  intros H.
  destruct (Qcompare_spec x 0) as [X|X|X]; destruct (Qcompare_spec y 0) as [Y|Y|Y];
    try (exfalso; lra).
  - rewrite (round64_of_zero x X), (round64_of_zero y Y). lra.
  - rewrite (round64_of_zero x X). apply Qlt_le_weak, round64_pos, Y.
  - rewrite (round64_of_zero y Y). apply Qlt_le_weak, round64_neg, X.
  - rewrite (round64_of_neg x X), (round64_of_neg y Y).
    pose proof (round_pos_mono (- y) (- x)). lra.
  - pose proof (round64_neg x X). pose proof (round64_pos y Y). lra.
  - rewrite (round64_of_pos x X), (round64_of_pos y Y). now apply round_pos_mono.
Qed.




Lemma round64_ge_representable (x r : Q) :
  representable r -> r <= x -> r <= round64 x.
Proof.
  intros Hr H. unfold representable in Hr.
  pose proof (round64_mono _ _ H) as M. lra.
Qed.

(** ** The segmenter on extracted ranges *)

Lemma main_loop_body_consider (products : list product) (c : option string) :
  Main.loop_body products c = Main.consider products (Main.extract_fee_range c).
Proof.
  destruct c as [s|]; [|reflexivity].
  unfold Main.loop_body.
  destruct (String.eqb s "N/A") eqn:E; [|reflexivity].
  apply String.eqb_eq in E. subst s. reflexivity.
Qed.

Lemma fold_left_ext_in {A B : Type} (f g : A -> B -> A) (l : list B) :
  (forall a b, f a b = g a b) -> forall a, fold_left f l a = fold_left g l a.
Proof.
  intros H. induction l as [|b l IH]; intros a; simpl; [reflexivity|].
  rewrite H. apply IH.
Qed.

(** [Main.segment] is [identify_products] with the extraction taken out of
    the loop. *)
Lemma main_identify_products_segment (r : row) :
  Main.identify_products r
  = Main.segment (Main.flat_products r)
      (map (fun i => Main.extract_fee_range (cell r i)) (seq 1 8)).
Proof.
  unfold Main.identify_products, Main.segment. f_equal.
  rewrite (fold_left_ext_in _ _ _ (fun ps i => main_loop_body_consider ps (cell r i))).
  generalize (Main.flat_products r). generalize (seq 1 8).
  induction l as [|i l IH]; intros ps; simpl; [reflexivity|apply IH].
Qed.

Lemma step3_identify_products_segment (r : row) :
  Step3.identify_products r
  = Step3.segment (Step3.flat_products r)
      (map (fun i => Step3.extract_fee_range (cell r i)) (seq 1 8)).
Proof. reflexivity. Qed.

(** Claim C5.  Given the contiguous ranges (0, 1 000 000, 1.0%),
    (1 000 000, 5 000 000, 0.75%), (5 000 000, unbounded, 0.5%) and no flat
    fee, each of the two segmenters returns exactly one product, a tiered one
    whose tiers are those three ranges in that order. *)
Theorem contiguous_ranges_one_product :
  Main.segment [] contiguous_ranges = (1%nat, [Tiered (three_tiers None None None) 0])
  /\ Step3.segment [] contiguous_ranges
     = (1%nat, [Tiered (three_tiers (Some 0%nat) (Some 1%nat) (Some 2%nat)) 0]).
Proof. split; vm_compute; reflexivity. Qed.

(** The same schedule read from the texts of a row. *)
Example contiguous_row_one_product :
  Main.identify_products contiguous_row
  = (1%nat, [Tiered (three_tiers None None None) 0])
  /\ Step3.identify_products contiguous_row
     = (1%nat, [Tiered (three_tiers (Some 0%nat) (Some 1%nat) (Some 2%nat)) 0]).
Proof. split; vm_compute; reflexivity. Qed.

(** ** Appending after an unbounded tier *)


Lemma try_append_length (products : list product) (t : tier) :
  forall products', Main.try_append products t = Some products' ->
                    List.length products' = List.length products.
Proof.
  induction products as [|p ps IH]; intros products' H; simpl in H; [discriminate|].
  destruct p as [f|ts idx].
  - destruct (Main.try_append ps t) as [ps'|]; [|discriminate].
    injection H as <-. simpl. f_equal. now apply IH.
  - destruct (Main.last_upper ts) as [u|].
    + destruct (Main.continues u (lower t)).
      * injection H as <-. reflexivity.
      * destruct (Main.try_append ps t) as [ps'|]; [|discriminate].
        injection H as <-. simpl. f_equal. now apply IH.
    + destruct (Main.try_append ps t) as [ps'|]; [|discriminate].
      injection H as <-. simpl. f_equal. now apply IH.
Qed.


Lemma last_upper_snoc (ts : list tier) (t : tier) :
  Main.last_upper (ts ++ [t]) = Some (upper t).
Proof. unfold Main.last_upper. now rewrite rev_app_distr. Qed.

Lemma try_append_flats (flats : list product) (t : tier) :
  forallb is_flat flats = true -> Main.try_append flats t = None.
Proof.
  induction flats as [|p ps IH]; [reflexivity|].
  simpl. intros H. apply andb_true_iff in H as [Hp Hps].
  destruct p; [|discriminate]. now rewrite (IH Hps).
Qed.










(** A bounded range appended after an unbounded tier leaves its product
    bounded again, and a later range can open a product: here the third range
    does. *)
Example bounded_range_reopens :
  Main.segment [] reopening_ranges
  = (2%nat,
     [Tiered [mkTier 0 Inf 1 None; mkTier 0 (Fin 10) 1 None] 0;
      Tiered [mkTier 500 (Fin 600) 1 None] 1]).
Proof. vm_compute. reflexivity. Qed.


(** The same from the texts of a row. *)
Example restart_row_products :
  fst (Main.identify_products restart_row) = 1%nat
  /\ fst (Step3.identify_products restart_row) = 3%nat.
Proof. split; vm_compute; reflexivity. Qed.

(** ** The range extractor *)

(** Claim C2 (evaluation of the code).  On the cell "$1,000,000+ (0.5%)"
    the dollar patterns allow a single thousands separator, so the open-range
    pattern finds no match and the fallback reads "$1,000": the extractor
    returns lower 1000, upper absent, fee percent 0.5, in both files. *)
Theorem extract_open_range_two_separators :
  Main.extract_fee_range (Some "$1,000,000+ (0.5%)") = (Some 1000, None, Some (1 # 2))
  /\ Step3.extract_fee_range (Some "$1,000,000+ (0.5%)") = (Some 1000, None, Some (1 # 2)).
Proof. split; vm_compute; reflexivity. Qed.

(** Claim C3 (evaluation of the code).  On the bounded range
    "$1,000,000 - $5,000,000 (0.75%)" the range pattern finds no match and
    the fallback reads "$1,000": the extractor returns lower 1000, upper
    absent, fee percent 0.75, in both files. *)
Theorem extract_bounded_range_two_separators :
  Main.extract_fee_range (Some "$1,000,000 - $5,000,000 (0.75%)")
  = (Some 1000, None, Some (3 # 4))
  /\ Step3.extract_fee_range (Some "$1,000,000 - $5,000,000 (0.75%)")
     = (Some 1000, None, Some (3 # 4)).
Proof. split; vm_compute; reflexivity. Qed.

(** With at most one separator in each amount the same cells are read as
    written. *)
Example extract_one_separator :
  Main.extract_fee_range (Some "$500,000 - $999,999.50 (1.25%)")
  = (Some 500000, Some (Fin (1999999 # 2)), Some (5 # 4))
  /\ Main.extract_fee_range (Some "$500,000+ (0.5%)")
     = (Some 500000, Some Inf, Some (1 # 2))
  /\ Main.extract_fee_range (Some "$1000000 - $5000000 (0.75%)")
     = (Some 1000000, Some (Fin 5000000), Some (3 # 4)).
Proof. repeat split; vm_compute; reflexivity. Qed.

(** ** The effective fee *)

(** Claim C4.  For the single tiered product with tiers (0, 1 000 000,
    1.0%), (1 000 000, 5 000 000, 0.75%), (5 000 000, unbounded, 0.5%) the
    calculator returns 1 at a portfolio value of 1 000 000 and 0.75 at
    6 000 000. *)
Theorem three_tier_effective_fee (idx : nat) (i1 i2 i3 : option nat) :
  (exists r, calculate_effective_fee [Tiered (three_tiers i1 i2 i3) idx] 1000000 = Some r
             /\ r == 1)
  /\ (exists r, calculate_effective_fee [Tiered (three_tiers i1 i2 i3) idx] 6000000 = Some r
                /\ r == 3 # 4).
Proof.
  split; [exists 1|exists (3 # 4)]; (split; [vm_compute; reflexivity|reflexivity]).
Qed.

(** The rounded computation gives the same two values, exactly. *)
Example three_tier_effective_fee_binary64 : Binary64.three_tiers_fees_exact = true.
Proof. vm_compute. reflexivity. Qed.

(** ** The tier walk *)

(** Walking a longer tier list continues the walk of its prefix: the walk
    over [firstn k tiers] is the state of the loop after [k] iterations, or
    at the [break] when that came earlier. *)
Lemma walk_app (a b : list tier) (total_fee remaining_value : Q) :
  walk (a ++ b) total_fee remaining_value
  = walk b (fst (walk a total_fee remaining_value))
           (snd (walk a total_fee remaining_value)).
Proof.
  revert total_fee remaining_value.
  induction a as [|t a IH]; intros total_fee remaining_value; cbn [app walk];
    [reflexivity|].
  destruct (Qle_bool remaining_value 0) eqn:E.
  - cbn [fst snd]. destruct b; cbn [walk]; [reflexivity|]. now rewrite E.
  - destruct (upper t); apply IH.
Qed.









Lemma forallb_firstn {A : Type} (f : A -> bool) (k : nat) (l : list A) :
  forallb f l = true -> forallb f (firstn k l) = true.
Proof.
  revert k. induction l as [|x l IH]; intros [|k] H; cbn [firstn forallb] in *;
    try reflexivity.
  apply andb_true_iff in H as [H1 H2]. rewrite H1. now apply IH.
Qed.



(** Claim C7 as stated fails: the amounts charged can sum to more than V.
    On the tiers read from "$0 - $99999.99" and "$100000+" at a portfolio of
    1 000 000 the first tier charges the float next to 99999.99 and the
    remaining value is the rounded difference, 2^-36 above the exact one; the
    second tier charges all of it. *)
Lemma tier_walk_sum_exceeds_value :
  0 < 1000000
  /\ Qsum (tier_values gap_tiers 1000000) - 1000000 == 1 # 68719476736
  /\ ~ (Qsum (tier_values gap_tiers 1000000) <= 1000000).
Proof.
  split; [reflexivity|]. split; [vm_compute; reflexivity|].
  vm_compute. intros H. apply H. reflexivity.
Qed.

(** ** Bounds on the blended rate *)





















(** Once a tier is unbounded the walk leaves nothing of the portfolio
    value. *)
Lemma walk_unbounded_exhausts (tiers : list tier) :
  existsb (fun t => is_inf (upper t)) tiers = true ->
  forall total_fee remaining_value,
    0 <= remaining_value ->
    snd (walk tiers total_fee remaining_value) == 0.
Proof.
  induction tiers as [|t rest IH]; cbn [existsb walk]; [discriminate|].
  intros H total_fee remaining_value Hr.
  destruct (Qle_bool remaining_value 0) eqn:E; cbn [snd].
  - apply Qle_bool_iff in E. lra.
  - destruct (upper t) as [u|]; cbn [is_inf orb] in H.
    + apply IH; [assumption|]. apply round64_nonneg.
      pose proof (Q.le_min_r (fsub u (lower t)) remaining_value). lra.
    + destruct rest as [|t' rest']; reflexivity.
Qed.




(** Rounding alone also takes the blended rate out of the range of the tier
    rates: one unbounded tier at the float nearest to 0.35% gives that rate
    at a portfolio of 1 000 000 and the next float above it at 5 000 000. *)
Example blended_rate_rounded_above_maximum :
  calculate_effective_fee [Tiered single_tier 0] 1000000 = Some (round64 (7 # 20))
  /\ exists r, calculate_effective_fee [Tiered single_tier 0] 5000000 = Some r
               /\ r - round64 (7 # 20) == 1 # 18014398509481984
               /\ ~ (r <= max_tier_rate single_tier).
Proof.
  split; [vm_compute; reflexivity|].
  exists (6305039478318695 # 18014398509481984).
  split; [vm_compute; reflexivity|]. split; [vm_compute; reflexivity|].
  vm_compute. intros H. apply H. reflexivity.
Qed.

(** A tier of negative width returns value to the walk, and the blended rate
    can leave the range of the tier rates on the other side: rates 1% and 2%,
    blended 2.5%. *)
Example inverted_tier_above_maximum :
  exists r, calculate_effective_fee [Tiered inverted_tiers 0] 10 = Some r
            /\ r == 5 # 2
            /\ ~ (r <= max_tier_rate inverted_tiers).
Proof.
  exists (5 # 2). split; [vm_compute; reflexivity|]. split; [reflexivity|].
  vm_compute. intros H. apply H. reflexivity.
Qed.

(** ** Texts on which no pattern can match *)

Lemma lower_char_digit (c : ascii) : is_digit (lower_char c) = is_digit c.
Proof. destruct c as [[] [] [] [] [] [] [] []]; reflexivity. Qed.

Lemma lower_char_space (c : ascii) : is_space (lower_char c) = is_space c.
Proof. destruct c as [[] [] [] [] [] [] [] []]; reflexivity. Qed.

Lemma any_char_lower (p : ascii -> bool) (s : string) :
  (forall c, p (lower_char c) = p c) -> any_char p (str_lower s) = any_char p s.
Proof.
  intros H. induction s as [|c s IH]; simpl; [reflexivity|]. now rewrite H, IH.
Qed.

Lemma all_chars_lower (p : ascii -> bool) (s : string) :
  (forall c, p (lower_char c) = p c) -> all_chars p (str_lower s) = all_chars p s.
Proof.
  intros H. induction s as [|c s IH]; simpl; [reflexivity|]. now rewrite H, IH.
Qed.

Lemma star_loop_none {A : Type} (P : string -> Prop) (a : atom)
    (k : string -> option A) :
  (forall c s, P (String c s) -> P s) ->
  (forall s, P s -> k s = None) ->
  forall s, P s -> star_loop a k s = None.
Proof.
  intros Htail Hk. induction s as [|c s IH]; intros Hs; simpl.
  - now apply Hk.
  - destruct (atom_matches a c).
    + rewrite (IH (Htail _ _ Hs)). simpl. now apply Hk.
    + now apply Hk.
Qed.

Lemma no_digit_tail (c : ascii) (s : string) : no_digit (String c s) -> no_digit s.
Proof. unfold no_digit. simpl. intros H. now apply orb_false_iff in H. Qed.

Lemma no_digit_head (c : ascii) (s : string) :
  no_digit (String c s) -> is_digit c = false.
Proof. unfold no_digit. simpl. intros H. now apply orb_false_iff in H. Qed.

(** A pattern that needs a digit matches nowhere in a text without one. *)
Lemma match_here_no_digit (r : regex) :
  needs_digit r = true ->
  forall s opened caps, no_digit s -> match_here r s opened caps = None.
Proof.
  induction r as [|it r IH]; [discriminate|].
  intros H s opened caps Hs. unfold needs_digit in H. simpl in H.
  destruct it as [q a| |]; simpl in H; try (simpl; now apply IH).
  assert (Hnone : forall (o : string) (l : list string),
             (q = Once \/ q = Plus) /\ a = Digit
             \/ forall s', no_digit s' -> match_here r s' o l = None).
  { intros o l. destruct q, a; simpl in H;
      first [ solve [left; split; [tauto|reflexivity]]
            | right; intros s' Hs'; now apply IH ]. }
  destruct (Hnone opened caps) as [[Hq ->]|Hk].
  - destruct s as [|c s]; [destruct Hq as [-> | ->]; reflexivity|].
    pose proof (no_digit_head _ _ Hs) as Hc.
    destruct Hq as [-> | ->]; simpl; now rewrite Hc.
  - pose proof (star_loop_none no_digit a (fun s' => match_here r s' opened caps)
                  no_digit_tail Hk) as Hstar.
    destruct q; simpl.
    + destruct s as [|c s]; [reflexivity|].
      destruct (atom_matches a c); [|reflexivity]. apply Hk. eapply no_digit_tail, Hs.
    + destruct s as [|c s]; [now apply Hk|].
      destruct (atom_matches a c); [|now apply Hk].
      rewrite (Hk s (no_digit_tail _ _ Hs)). simpl. now apply Hk.
    + now apply Hstar.
    + destruct s as [|c s]; [reflexivity|].
      destruct (atom_matches a c); [|reflexivity]. apply Hstar. eapply no_digit_tail, Hs.
Qed.

Lemma search_no_digit (r : regex) (s : string) :
  needs_digit r = true -> no_digit s -> search r s = None.
Proof.
  intros H. induction s as [|c s IH]; intros Hs; simpl.
  - now rewrite match_here_no_digit.
  - rewrite match_here_no_digit by assumption. apply IH. eapply no_digit_tail, Hs.
Qed.

(** ** The field normalizers *)

Lemma lower_no_digit (s t : string) :
  str_lower s = t -> any_char is_digit t = false -> no_digit s.
Proof.
  intros <- H. unfold no_digit. now rewrite <- (any_char_lower _ s lower_char_digit).
Qed.

Lemma lower_not_blank (s t : string) :
  str_lower s = t -> all_chars is_space t = false -> strip_is_empty s = false.
Proof.
  intros <- H. unfold strip_is_empty.
  now rewrite <- (all_chars_lower _ s lower_char_space).
Qed.

Lemma blank_lower_neq (s t : string) :
  strip_is_empty s = true -> all_chars is_space t = false -> String.eqb (str_lower s) t = false.
Proof.
  intros Hs Ht. apply String.eqb_neq. intros E.
  rewrite (lower_not_blank s t E Ht) in Hs. discriminate.
Qed.

Lemma flat_fee_unparsed (s : string) :
  no_digit s -> strip_is_empty s = false -> String.eqb (str_lower s) "no" = false ->
  Main.process_flat_fee (Some s) = (1%Z, None).
Proof.
  intros Hd Hb Hno. unfold Main.process_flat_fee.
  rewrite Hno, Hb. simpl orb.
  rewrite (search_no_digit pct_re s eq_refl Hd).
  rewrite (search_no_digit dollar_re s eq_refl Hd).
  rewrite (search_no_digit num_re s eq_refl Hd).
  now destruct (in_list (str_lower s) ["yes"; "y"; "true"]).
Qed.

(** Claim C8, as the code has it.  On empty or all-blank text, on "No" and
    on "N/A" in any letter case, [process_minimum_investment] and
    [process_negotiable_threshold] return absent.  [process_flat_fee] returns
    absent on empty or all-blank text and on "No" in any letter case; "N/A"
    is not one of its sentinels, and it returns present with unknown value
    there.  A missing cell is absent for all three. *)
Theorem sentinel_tokens_absent (s : string) :
  strip_is_empty s = true \/ str_lower s = "no" \/ str_lower s = "n/a" ->
  Main.process_minimum_investment (Some s) = (0%Z, None)
  /\ Main.process_negotiable_threshold (Some s) = (0%Z, None)
  /\ Main.process_flat_fee (Some s)
     = (if String.eqb (str_lower s) "n/a" then (1%Z, None) else (0%Z, None))
  /\ Main.process_minimum_investment None = (0%Z, None)
  /\ Main.process_negotiable_threshold None = (0%Z, None)
  /\ Main.process_flat_fee None = (0%Z, None).
Proof.
  intros H.
  assert (Hguard : in_list (str_lower s) ["no"; "n/a"] || strip_is_empty s = true).
  { destruct H as [-> | [-> | ->]]; [apply orb_true_r|reflexivity|reflexivity]. }
  unfold Main.process_minimum_investment, Main.process_negotiable_threshold.
  rewrite Hguard. repeat split.
  destruct H as [Hb | [E | E]].
  - unfold Main.process_flat_fee. rewrite Hb, orb_true_r.
    now rewrite (blank_lower_neq s "n/a" Hb eq_refl).
  - unfold Main.process_flat_fee. now rewrite E.
  - rewrite flat_fee_unparsed.
    + now rewrite E.
    + now apply (lower_no_digit s "n/a").
    + now apply (lower_not_blank s "n/a").
    + now rewrite E.
Qed.

Lemma sentinel_tokens_absent_witness :
  (strip_is_empty "No" = true \/ str_lower "No" = "no" \/ str_lower "No" = "n/a")
  /\ Main.process_minimum_investment (Some "No") = (0%Z, None)
  /\ Main.process_negotiable_threshold (Some "No") = (0%Z, None)
  /\ Main.process_flat_fee (Some "No") = (0%Z, None).
Proof.
  assert (H : strip_is_empty "No" = true \/ str_lower "No" = "no" \/ str_lower "No" = "n/a")
    by (right; left; reflexivity).
  split; [exact H|].
  destruct (sentinel_tokens_absent "No" H) as (H1 & H2 & H3 & _).
  split; [exact H1|]. split; [exact H2|exact H3].
Defined.

(** Claim C8 as stated fails: [process_flat_fee] does not return absent on
    the token "N/A". *)
Lemma flat_fee_na_present :
  Main.process_flat_fee (Some "N/A") <> (0%Z, None).
Proof. vm_compute. discriminate. Qed.

(** The token "-1" is in none of the three sentinel tests of
    [enhanced_fee_analysis.py]; its digit is read as the amount. *)
Example minus_one_read_as_amount :
  Main.process_flat_fee (Some "-1") = (1%Z, Some 1)
  /\ Main.process_minimum_investment (Some "-1") = (1%Z, Some 1)
  /\ Main.process_negotiable_threshold (Some "-1") = (1%Z, Some 1).
Proof. repeat split; vm_compute; reflexivity. Qed.

(** Claim C9, as the code has it.  For text that is not blank, is not "No"
    and contains no digit (so that no percent, dollar or numeric pattern
    matches), [process_flat_fee] returns present with unknown value;
    [process_minimum_investment] returns present with unknown value only for
    "yes", "y" or "true" in any letter case and absent otherwise;
    [process_negotiable_threshold] returns absent; [process_negotiable]
    returns 1 only for "yes", "y", "true" or "negotiable". *)
Theorem unparsed_text_presence (s : string) :
  no_digit s -> strip_is_empty s = false -> str_lower s <> "no" ->
  Main.process_flat_fee (Some s) = (1%Z, None)
  /\ Main.process_minimum_investment (Some s)
     = (if in_list (str_lower s) yes_tokens then (1%Z, None) else (0%Z, None))
  /\ Main.process_negotiable_threshold (Some s) = (0%Z, None)
  /\ Main.process_negotiable (Some s)
     = (if in_list (str_lower s) ["yes"; "y"; "true"; "negotiable"] then 1%Z else 0%Z).
Proof.
  intros Hd Hb Hno. apply String.eqb_neq in Hno.
  split; [now apply flat_fee_unparsed|].
  unfold Main.process_minimum_investment, Main.process_negotiable_threshold,
    Main.process_negotiable.
  assert (Hguard : in_list (str_lower s) ["no"; "n/a"]
                   = String.eqb (str_lower s) "n/a").
  { unfold in_list. simpl. rewrite Hno. simpl. apply orb_false_r. }
  rewrite Hguard, Hb.
  rewrite (search_no_digit dollar_re s eq_refl Hd).
  rewrite (search_no_digit num_comma_re s eq_refl Hd).
  destruct (String.eqb (str_lower s) "n/a") eqn:E; simpl orb; cbv iota.
  - apply String.eqb_eq in E. rewrite E.
    split; [reflexivity|]. split; reflexivity.
  - split; [reflexivity|]. split; reflexivity.
Qed.

Lemma unparsed_text_presence_witness :
  (no_digit "Varies" /\ strip_is_empty "Varies" = false /\ str_lower "Varies" <> "no")
  /\ Main.process_flat_fee (Some "Varies") = (1%Z, None)
  /\ Main.process_minimum_investment (Some "Varies") = (0%Z, None)
  /\ Main.process_negotiable_threshold (Some "Varies") = (0%Z, None).
Proof.
  assert (H1 : no_digit "Varies") by reflexivity.
  assert (H2 : strip_is_empty "Varies" = false) by reflexivity.
  assert (H3 : str_lower "Varies" <> "no") by (vm_compute; discriminate).
  split; [split; [exact H1|split; [exact H2|exact H3]]|].
  destruct (unparsed_text_presence "Varies" H1 H2 H3) as (A & B & C & _).
  split; [exact A|]. split; [exact B|exact C].
Defined.

(** Claim C9 as stated fails: "Varies" is no sentinel and holds no marker or
    number, yet [process_minimum_investment] and
    [process_negotiable_threshold] return absent. *)
Lemma unparsed_min_investment_absent :
  no_digit "Varies"
  /\ in_list (str_lower "Varies") ["no"; "n/a"; "-1"; ""] = false
  /\ fst (Main.process_minimum_investment (Some "Varies")) <> 1%Z
  /\ fst (Main.process_negotiable_threshold (Some "Varies")) <> 1%Z.
Proof. repeat split; vm_compute; discriminate. Qed.

(** ** The two extractors keep the same ranges *)

Lemma lower_char_dollar (c : ascii) : is_dollar (lower_char c) = is_dollar c.
Proof. destruct c as [[] [] [] [] [] [] [] []]; reflexivity. Qed.

Lemma space_not_dollar (c : ascii) : is_space c = true -> is_dollar c = false.
Proof. destruct c as [[] [] [] [] [] [] [] []]; intros H; (reflexivity || discriminate H). Qed.

Lemma blank_no_dollar (s : string) : strip_is_empty s = true -> no_dollar s.
Proof.
  unfold strip_is_empty, no_dollar. induction s as [|c s IH]; simpl; [reflexivity|].
  intros H. apply andb_true_iff in H as [Hc Hs].
  now rewrite (space_not_dollar c Hc), IH.
Qed.

Lemma lower_no_dollar (s t : string) :
  str_lower s = t -> any_char is_dollar t = false -> no_dollar s.
Proof.
  intros <- H. unfold no_dollar. now rewrite <- (any_char_lower _ s lower_char_dollar).
Qed.

Lemma no_dollar_tail (c : ascii) (s : string) : no_dollar (String c s) -> no_dollar s.
Proof. unfold no_dollar. simpl. intros H. now apply orb_false_iff in H. Qed.

(** The dollar patterns match nowhere in a text without a dollar sign. *)
Lemma search_no_dollar (r : regex) (s : string) :
  no_dollar s -> search (Rep Once (Lit "$") :: r) s = None.
Proof.
  induction s as [|c s IH]; intros Hs; [reflexivity|].
  unfold no_dollar in Hs. simpl in Hs. apply orb_false_iff in Hs as [Hc Hs].
  simpl. unfold is_dollar in Hc. rewrite Hc. now apply IH.
Qed.

Lemma extract_bounds_no_dollar (s : string) :
  no_dollar s -> extract_bounds s = (None, None).
Proof.
  intros Hs. unfold extract_bounds, range_re, plus_re, dollar_re.
  simpl app. now rewrite !search_no_dollar.
Qed.

(** Whatever either sentinel test rejects holds no dollar sign. *)
Lemma main_sentinel_no_dollar (s : string) :
  String.eqb (str_lower s) "n/a" || strip_is_empty s = true -> no_dollar s.
Proof.
  intros H. apply orb_true_iff in H as [H|H].
  - apply String.eqb_eq in H. now apply (lower_no_dollar s "n/a").
  - now apply blank_no_dollar.
Qed.

Lemma step3_sentinel_no_dollar (s : string) :
  String.eqb s "" || in_list (str_lower s) ["n/a"; "na"; "-1"] = true -> no_dollar s.
Proof.
  intros H. apply orb_true_iff in H as [H|H].
  - apply String.eqb_eq in H. now subst s.
  - unfold in_list in H. simpl in H.
    repeat (apply orb_true_iff in H as [H|H]); try discriminate;
      apply String.eqb_eq in H; eapply lower_no_dollar; try exact H; reflexivity.
Qed.

(** Both files keep the same ranges of a cell: their extractors differ only on
    cells that hold no dollar amount, which neither keeps. *)
Lemma kept_extract_agree (c : option string) :
  kept (Step3.extract_fee_range c) = kept (Main.extract_fee_range c).
Proof.
  destruct c as [s|]; [|reflexivity].
  unfold Step3.extract_fee_range, Main.extract_fee_range.
  destruct (String.eqb s "" || in_list (str_lower s) ["n/a"; "na"; "-1"]) eqn:E3;
    destruct (String.eqb (str_lower s) "n/a" || strip_is_empty s) eqn:Em;
    try reflexivity.
  - now rewrite (extract_bounds_no_dollar s (step3_sentinel_no_dollar s E3)).
  - now rewrite (extract_bounds_no_dollar s (main_sentinel_no_dollar s Em)).
Qed.

(** ** The two segmenters on a single chain *)

Lemma continues_sym (u : bound) (lo : Q) : Main.continues u lo = Step3.continues lo u.
Proof.
  destruct u as [q|]; [|reflexivity].
  unfold Main.continues, Step3.continues, fsub.
  assert (E : Qabs (round64 (lo - q)) == Qabs (round64 (q - lo))).
  { assert (N : lo - q == - (q - lo)) by ring.
    rewrite (round64_comp _ _ N), round64_opp. apply Qabs_opp. }
  unfold Qltb.
  assert (C : Qle_bool tolerance (Qabs (round64 (q - lo)))
              = Qle_bool tolerance (Qabs (round64 (lo - q)))).
  { destruct (Qle_bool tolerance (Qabs (round64 (q - lo)))) eqn:A;
      destruct (Qle_bool tolerance (Qabs (round64 (lo - q)))) eqn:B; try reflexivity.
    - apply Qle_bool_iff in A. rewrite <- E in A. apply Qle_bool_iff in A. congruence.
    - apply Qle_bool_iff in B. rewrite E in B. apply Qle_bool_iff in B. congruence. }
  now rewrite C.
Qed.






Lemma fold_consider_kept (es : list extracted) :
  forall ps, fold_left Main.consider es ps = fold_left Main.add_tier (flat_map kept es) ps.
Proof.
  induction es as [|e es IH]; intros ps; [reflexivity|].
  simpl. rewrite fold_left_app, IH. f_equal.
  destruct e as [[[lo|] up] [f|]]; reflexivity.
Qed.

Lemma map_flat_map {A B C : Type} (f : B -> C) (g : A -> list B) (l : list A) :
  map f (flat_map g l) = flat_map (fun a => map f (g a)) l.
Proof.
  induction l as [|a l IH]; [reflexivity|]. simpl. now rewrite map_app, IH.
Qed.

Lemma flat_map_ext_eq {A B : Type} (f g : A -> list B) (l : list A) :
  (forall a, f a = g a) -> flat_map f l = flat_map g l.
Proof.
  intros H. induction l as [|a l IH]; [reflexivity|]. simpl. now rewrite H, IH.
Qed.

Lemma fee_range_plain (i : nat) (e : extracted) :
  map plain_tier (Step3.fee_range i e) = kept e.
Proof. destruct e as [[[lo|] up] [f|]]; reflexivity. Qed.


(** The ranges of [enhanced_fee_analysis_step3.py] are those of
    [enhanced_fee_analysis.py], each tagged with its column. *)
Lemma step3_ranges_plain (r : row) :
  map plain_tier
    (flat_map (fun i => Step3.fee_range i (Step3.extract_fee_range (cell r i))) (seq 1 8))
  = retained r.
Proof.
  rewrite map_flat_map. unfold retained. apply flat_map_ext_eq.
  intros i. rewrite fee_range_plain. apply kept_extract_agree.
Qed.







Lemma main_flats_flat (r : row) : forallb is_flat (Main.flat_products r) = true.
Proof. unfold Main.flat_products. now destruct (has_flat_fee r =? 1)%Z. Qed.




Lemma flat_map_map {A B C : Type} (f : B -> list C) (g : A -> B) (l : list A) :
  flat_map f (map g l) = flat_map (fun a => f (g a)) l.
Proof.
  induction l as [|a l IH]; [reflexivity|]. simpl. now rewrite IH.
Qed.

Lemma main_products (r : row) :
  snd (Main.identify_products r)
  = sort_products (fold_left Main.add_tier (retained r) (Main.flat_products r)).
Proof.
  rewrite main_identify_products_segment.
  unfold Main.segment, Main.finish. cbn [snd].
  now rewrite fold_consider_kept, flat_map_map.
Qed.

Lemma step3_products (r : row) :
  snd (Step3.identify_products r)
  = sort_products
      (Step3.group_products (Step3.flat_products r)
         (flat_map (fun i => Step3.fee_range i (Step3.extract_fee_range (cell r i)))
            (seq 1 8))).
Proof. reflexivity. Qed.

Lemma main_count (r : row) :
  fst (Main.identify_products r) = List.length (snd (Main.identify_products r)).
Proof. reflexivity. Qed.

Lemma step3_count (r : row) :
  fst (Step3.identify_products r) = List.length (snd (Step3.identify_products r)).
Proof. reflexivity. Qed.




(** A flat fee that is present without a value ("Yes") is a product only in
    [enhanced_fee_analysis.py]. *)
Example segmenters_differ_on_flat_without_value :
  Main.identify_products (mkRow 1 None []) = (1%nat, [Flat None])
  /\ Step3.identify_products (mkRow 1 None []) = (0%nat, []).
Proof. split; reflexivity. Qed.

(** A chain listed from its unbounded tier down keeps its column order in
    [enhanced_fee_analysis.py] and is sorted in
    [enhanced_fee_analysis_step3.py]. *)
Example segmenters_differ_on_order :
  let r := mkRow 0 None [Some "$500000+ (1.0%)"; Some "$0 - $500000 (1.2%)"] in
  map plain (snd (Main.identify_products r))
  = [Tiered [mkTier 500000 Inf 1 None; mkTier 0 (Fin 500000) (round64 (6 # 5)) None] 0]
  /\ map plain (snd (Step3.identify_products r))
     = [Tiered [mkTier 0 (Fin 500000) (round64 (6 # 5)) None; mkTier 500000 Inf 1 None] 0].
Proof. split; vm_compute; reflexivity. Qed.

(** ** What the patterns capture, [float] converts

    [float] is [None] where Python raises [ValueError].  That never happens
    in the functions above: a capture of the amount pattern, once its comma
    is removed, and a capture of the number pattern are decimal numerals. *)

Lemma orelse_some {A : Type} (x y : option A) (m : A) :
  orelse x y = Some m -> x = Some m \/ y = Some m.
Proof. destruct x; simpl; auto. Qed.

Lemma search_some (r : regex) (s : string) (m : list string) :
  search r s = Some m -> exists s', match_here r s' "" [] = Some m.
Proof.
  induction s as [|c s IH]; simpl.
  - destruct (match_here r "" "" []) eqn:E; [|discriminate].
    intros H. exists "". congruence.
  - destruct (match_here r (String c s) "" []) eqn:E.
    + intros H. exists (String c s). congruence.
    + apply IH.
Qed.

Lemma star_loop_some {A : Type} (a : atom) (k : string -> option A) (s : string) (m : A) :
  star_loop a k s = Some m ->
  exists p rest, s = (p ++ rest)%string
                 /\ all_chars (atom_matches a) p = true /\ k rest = Some m.
Proof.
  induction s as [|c s IH]; simpl.
  - intros H. exists "", "". auto.
  - destruct (atom_matches a c) eqn:Ec.
    + intros H. apply orelse_some in H as [H|H].
      * destruct (IH H) as (p & rest & -> & Hp & Hk).
        exists (String c p), rest. simpl. rewrite Ec. auto.
      * exists "", (String c s). auto.
    + intros H. exists "", (String c s). auto.
Qed.

Section Inversions.
Context (r : regex) (opened : string) (caps m : list string).

Lemma once_some (a : atom) (s : string) :
  match_here (Rep Once a :: r) s opened caps = Some m ->
  exists c rest, s = String c rest /\ atom_matches a c = true
                 /\ match_here r rest opened caps = Some m.
Proof.
  simpl. destruct s as [|c s]; [discriminate|].
  destruct (atom_matches a c) eqn:E; [|discriminate].
  intros H. exists c, s. auto.
Qed.

Lemma opt_some (d : ascii) (s : string) :
  match_here (Rep Opt (Lit d) :: r) s opened caps = Some m ->
  exists pc rest, s = (pc ++ rest)%string /\ (pc = "" \/ pc = String d "")
                  /\ match_here r rest opened caps = Some m.
Proof.
  simpl. destruct s as [|c s].
  - intros H. exists "", "". auto.
  - destruct (Ascii.eqb c d) eqn:E.
    + apply Ascii.eqb_eq in E. subst c.
      intros H. apply orelse_some in H as [H|H].
      * exists (String d ""), s. auto.
      * exists "", (String d s). auto.
    + intros H. exists "", (String c s). auto.
Qed.

Lemma star_some (a : atom) (s : string) :
  match_here (Rep Star a :: r) s opened caps = Some m ->
  exists p rest, s = (p ++ rest)%string /\ all_chars (atom_matches a) p = true
                 /\ match_here r rest opened caps = Some m.
Proof. simpl. apply star_loop_some. Qed.

Lemma plus_some (a : atom) (s : string) :
  match_here (Rep Plus a :: r) s opened caps = Some m ->
  exists c p rest, s = String c (p ++ rest)%string /\ atom_matches a c = true
                   /\ all_chars (atom_matches a) p = true
                   /\ match_here r rest opened caps = Some m.
Proof.
  simpl. destruct s as [|c s]; [discriminate|].
  destruct (atom_matches a c) eqn:E; [|discriminate].
  intros H. apply star_loop_some in H as (p & rest & -> & Hp & Hk).
  exists c, p, rest. auto.
Qed.

End Inversions.

Lemma append_assoc (a b c : string) : ((a ++ b) ++ c = a ++ (b ++ c))%string.
Proof. induction a as [|x a IH]; simpl; [reflexivity|now rewrite IH]. Qed.

Lemma append_nil_r (a : string) : (a ++ "")%string = a.
Proof. induction a as [|x a IH]; simpl; [reflexivity|now rewrite IH]. Qed.

Lemma length_append (a b : string) :
  String.length (a ++ b)%string = (String.length a + String.length b)%nat.
Proof. induction a as [|x a IH]; simpl; [reflexivity|now rewrite IH]. Qed.

Lemma take_append (x rest : string) :
  take (String.length (x ++ rest)%string - String.length rest) (x ++ rest)%string = x.
Proof.
  rewrite length_append, Nat.add_sub.
  induction x as [|c x IH]; simpl; [now destruct rest|now rewrite IH].
Qed.

Lemma match_here_gopen (r : regex) (s opened : string) (caps : list string) :
  match_here (GOpen :: r) s opened caps = match_here r s s caps.
Proof. reflexivity. Qed.

Lemma match_here_gclose (r : regex) (s opened : string) (caps : list string) :
  match_here (GClose :: r) s opened caps
  = match_here r s "" (take (String.length opened - String.length s) opened :: caps).
Proof. reflexivity. Qed.

(** A group around the amount pattern captures a text of [amount_shape],
    and the rest of the pattern goes on behind it. *)
Lemma amount_group (post : regex) (s opened : string) (caps m : list string) :
  match_here (GOpen :: amount_re ++ GClose :: post) s opened caps = Some m ->
  exists cap rest, amount_shape cap /\ s = (cap ++ rest)%string
                   /\ match_here post rest "" (cap :: caps) = Some m.
Proof.
  rewrite match_here_gopen. unfold amount_re. simpl app. intros H.
  apply plus_some in H as (c & p1 & r1 & E & Hc & Hp1 & H).
  apply opt_some in H as (pc & r2 & -> & Hpc & H).
  apply star_some in H as (p2 & r3 & -> & Hp2 & H).
  apply opt_some in H as (pp & r4 & -> & Hpp & H).
  apply star_some in H as (p3 & r5 & -> & Hp3 & H).
  rewrite match_here_gclose in H.
  assert (Es : s = (String c (p1 ++ pc ++ p2 ++ pp ++ p3) ++ r5)%string).
  { rewrite E. simpl. now rewrite !append_assoc. }
  rewrite Es, take_append in H.
  exists (String c (p1 ++ pc ++ p2 ++ pp ++ p3)%string), r5.
  split; [|split; assumption].
  exists c, p1, pc, p2, pp, p3. repeat split; assumption.
Qed.

Lemma digits_append (a b : string) : digits a -> digits b -> digits (a ++ b)%string.
Proof.
  unfold digits. induction a as [|x a IH]; simpl; [auto|].
  intros Ha Hb. apply andb_true_iff in Ha as [Hx Ha]. now rewrite Hx, IH.
Qed.

Lemma digit_not_comma (c : ascii) : is_digit c = true -> Ascii.eqb c "," = false.
Proof.
  intros H. destruct (Ascii.eqb c ",") eqn:E; [|reflexivity].
  apply Ascii.eqb_eq in E. subst c. discriminate H.
Qed.

Lemma digit_not_point (c : ascii) : is_digit c = true -> Ascii.eqb c "." = false.
Proof.
  intros H. destruct (Ascii.eqb c ".") eqn:E; [|reflexivity].
  apply Ascii.eqb_eq in E. subst c. discriminate H.
Qed.

Lemma remove_commas_append (a b : string) :
  remove_commas (a ++ b)%string = (remove_commas a ++ remove_commas b)%string.
Proof.
  induction a as [|x a IH]; simpl; [reflexivity|].
  destruct (Ascii.eqb x ","); simpl; now rewrite IH.
Qed.

Lemma remove_commas_digits (p : string) : digits p -> remove_commas p = p.
Proof.
  unfold digits. induction p as [|x p IH]; simpl; [reflexivity|].
  intros H. apply andb_true_iff in H as [Hx Hp].
  now rewrite (digit_not_comma x Hx), IH.
Qed.

(** The number pattern captures an amount without comma. *)
Lemma number_group (post : regex) (s opened : string) (caps m : list string) :
  match_here (GOpen :: Rep Plus Digit :: Rep Opt (Lit ".") :: Rep Star Digit
                :: GClose :: post) s opened caps = Some m ->
  exists cap rest, amount_shape cap /\ remove_commas cap = cap
                   /\ s = (cap ++ rest)%string
                   /\ match_here post rest "" (cap :: caps) = Some m.
Proof.
  rewrite match_here_gopen. intros H.
  apply plus_some in H as (c & p1 & r1 & E & Hc & Hp1 & H).
  apply opt_some in H as (pp & r4 & -> & Hpp & H).
  apply star_some in H as (p3 & r5 & -> & Hp3 & H).
  rewrite match_here_gclose in H.
  assert (Es : s = (String c (p1 ++ "" ++ "" ++ pp ++ p3) ++ r5)%string).
  { rewrite E. simpl. now rewrite !append_assoc. }
  rewrite Es, take_append in H.
  exists (String c (p1 ++ "" ++ "" ++ pp ++ p3)%string), r5.
  split; [|split; [|split; assumption]].
  - exists c, p1, "", "", pp, p3. repeat split; auto.
  - simpl. rewrite (digit_not_comma c Hc). f_equal.
    rewrite !remove_commas_append, (remove_commas_digits p1 Hp1),
      (remove_commas_digits p3 Hp3).
    now destruct Hpp as [-> | ->].
Qed.

Lemma split_point_digits (d : string) : digits d -> split_point d = (d, None).
Proof.
  unfold digits. induction d as [|x d IH]; simpl; [reflexivity|].
  intros H. apply andb_true_iff in H as [Hx Hd].
  now rewrite (digit_not_point x Hx), (IH Hd).
Qed.

Lemma split_point_at_point (d f : string) :
  digits d -> split_point (d ++ String "." f)%string = (d, Some f).
Proof.
  unfold digits. induction d as [|x d IH]; simpl; [reflexivity|].
  intros H. apply andb_true_iff in H as [Hx Hd].
  now rewrite (digit_not_point x Hx), (IH Hd).
Qed.

Lemma float_numeral (c : ascii) (d : string) (pp f : string) :
  is_digit c = true -> digits d -> (pp = "" \/ pp = ".") -> digits f ->
  exists q, float (String c (d ++ pp ++ f)%string) = Some q.
Proof.
  intros Hc Hd Hpp Hf. unfold float.
  destruct Hpp as [-> | ->]; simpl append.
  - assert (Hall : digits (String c (d ++ f)%string)).
    { unfold digits. simpl. rewrite Hc. now apply digits_append. }
    rewrite (split_point_digits _ Hall). simpl. rewrite Hc.
    unfold digits in *. simpl in Hall. rewrite Hc in Hall. simpl in Hall.
    rewrite Hall. eexists. reflexivity.
  - change (String c (d ++ String "." f)%string)
      with (String c d ++ String "." f)%string.
    assert (Hcd : digits (String c d)) by (unfold digits; simpl; now rewrite Hc).
    rewrite (split_point_at_point _ f Hcd). simpl. rewrite Hc.
    unfold digits in *. rewrite Hd, Hf. eexists. reflexivity.
Qed.

(** [float] accepts every [amount_shape] whose comma has been removed. *)
Lemma float_amount (cap : string) :
  amount_shape cap -> exists q, float (remove_commas cap) = Some q.
Proof.
  intros (c & p1 & pc & p2 & pp & p3 & -> & Hc & Hp1 & Hpc & Hp2 & Hpp & Hp3).
  simpl. rewrite (digit_not_comma c Hc), !remove_commas_append.
  rewrite (remove_commas_digits p1 Hp1), (remove_commas_digits p2 Hp2),
    (remove_commas_digits p3 Hp3).
  assert (Epc : remove_commas pc = "") by now destruct Hpc as [-> | ->].
  assert (Epp : remove_commas pp = pp) by now destruct Hpp as [-> | ->].
  rewrite Epc, Epp. simpl append. rewrite <- append_assoc.
  apply float_numeral; auto. now apply digits_append.
Qed.

Lemma match_here_nil (s opened : string) (caps m : list string) :
  match_here [] s opened caps = Some m -> m = rev caps.
Proof. simpl. congruence. Qed.

(** No conversion in the extractor or the normalizers fails: whenever one
    of the six patterns matches, [float] converts what the code hands it. *)
Lemma dollar_converts (s : string) (m : list string) :
  search dollar_re s = Some m -> exists q, float (remove_commas (group 1 m)) = Some q.
Proof.
  intros H. apply search_some in H as [s' H].
  apply once_some in H as (c & r1 & _ & _ & H).
  apply (amount_group []) in H as (cap & rest & Hcap & _ & H).
  apply match_here_nil in H. subst m. now apply float_amount.
Qed.

Lemma plus_converts (s : string) (m : list string) :
  search plus_re s = Some m -> exists q, float (remove_commas (group 1 m)) = Some q.
Proof.
  intros H. apply search_some in H as [s' H].
  apply once_some in H as (c & r1 & _ & _ & H).
  apply (amount_group [Rep Once (Lit "+")]) in H as (cap & rest & Hcap & _ & H).
  apply once_some in H as (c' & r2 & _ & _ & H).
  apply match_here_nil in H. subst m. now apply float_amount.
Qed.

Lemma range_converts (s : string) (m : list string) :
  search range_re s = Some m ->
  (exists q, float (remove_commas (group 1 m)) = Some q)
  /\ (exists q, float (remove_commas (group 2 m)) = Some q).
Proof.
  intros H. apply search_some in H as [s' H].
  apply once_some in H as (c & r1 & _ & _ & H).
  apply (amount_group ([Rep Star Space; Rep Once (Lit "-"); Rep Star Space] ++ dollar_re))
    in H as (cap & rest & Hcap & _ & H).
  apply star_some in H as (p1 & r2 & _ & _ & H).
  apply once_some in H as (c2 & r3 & _ & _ & H).
  apply star_some in H as (p2 & r4 & _ & _ & H).
  apply once_some in H as (c3 & r5 & _ & _ & H).
  apply (amount_group []) in H as (cap2 & rest2 & Hcap2 & _ & H).
  apply match_here_nil in H. subst m.
  split; now apply float_amount.
Qed.

Lemma num_comma_converts (s : string) (m : list string) :
  search num_comma_re s = Some m -> exists q, float (remove_commas (group 1 m)) = Some q.
Proof.
  intros H. apply search_some in H as [s' H].
  apply (amount_group []) in H as (cap & rest & Hcap & _ & H).
  apply match_here_nil in H. subst m. now apply float_amount.
Qed.

Lemma pct_converts (s : string) (m : list string) :
  search pct_re s = Some m -> exists q, float (group 1 m) = Some q.
Proof.
  intros H. apply search_some in H as [s' H].
  apply (number_group [Rep Once (Lit "%")]) in H as (cap & rest & Hcap & E & _ & H).
  apply once_some in H as (c & r1 & _ & _ & H).
  apply match_here_nil in H. subst m. simpl. rewrite <- E. now apply float_amount.
Qed.

Lemma num_converts (s : string) (m : list string) :
  search num_re s = Some m -> exists q, float (group 1 m) = Some q.
Proof.
  intros H. apply search_some in H as [s' H].
  apply (number_group []) in H as (cap & rest & Hcap & E & _ & H).
  apply match_here_nil in H. subst m. simpl. rewrite <- E. now apply float_amount.
Qed.

(** * Further properties of the code *)

(** ** Patterns that cannot match, and patterns that must *)

Lemma any_char_tail (bad : ascii -> bool) (c : ascii) (s : string) :
  any_char bad (String c s) = false -> any_char bad s = false.
Proof. simpl. intros H. now apply orb_false_iff in H. Qed.

Lemma any_char_head (bad : ascii -> bool) (c : ascii) (s : string) :
  any_char bad (String c s) = false -> bad c = false.
Proof. simpl. intros H. now apply orb_false_iff in H. Qed.

(** A pattern with an item that needs a [bad] character matches nowhere in
    a text without one. *)
Lemma match_here_lacking (bad : ascii -> bool) (r : regex) :
  Exists (item_needs bad) r ->
  forall s opened caps, any_char bad s = false -> match_here r s opened caps = None.
Proof.
  induction r as [|it r IH]; intros H; [inversion H|].
  intros s opened caps Hs.
  apply Exists_cons in H as [(q & a & -> & Hq & Ha)|H].
  - destruct s as [|c s]; [destruct Hq as [-> | ->]; reflexivity|].
    assert (Hc : atom_matches a c = false).
    { destruct (atom_matches a c) eqn:E; [|reflexivity].
      pose proof (any_char_head _ _ _ Hs) as Hb.
      rewrite (Ha c E) in Hb. discriminate Hb. }
    destruct Hq as [-> | ->]; simpl; now rewrite Hc.
  - pose proof (IH H) as Hk.
    destruct it as [q a| |]; simpl; try now apply Hk.
    pose proof (star_loop_none (fun s' => any_char bad s' = false) a
                  (fun s' => match_here r s' opened caps)
                  (any_char_tail bad) (fun s' Hs' => Hk s' opened caps Hs')) as Hstar.
    destruct q.
    + destruct s as [|c s]; [reflexivity|].
      destruct (atom_matches a c); [|reflexivity]. apply Hk. eapply any_char_tail, Hs.
    + destruct s as [|c s]; [now apply Hk|].
      destruct (atom_matches a c); [|now apply Hk].
      rewrite (Hk s opened caps (any_char_tail _ _ _ Hs)). simpl. now apply Hk.
    + now apply Hstar.
    + destruct s as [|c s]; [reflexivity|].
      destruct (atom_matches a c); [|reflexivity]. apply Hstar. eapply any_char_tail, Hs.
Qed.

Lemma search_lacking (bad : ascii -> bool) (r : regex) (s : string) :
  Exists (item_needs bad) r -> any_char bad s = false -> search r s = None.
Proof.
  intros H. induction s as [|c s IH]; intros Hs; simpl.
  - now rewrite (match_here_lacking bad r H).
  - rewrite (match_here_lacking bad r H) by assumption.
    apply IH. eapply any_char_tail, Hs.
Qed.

Lemma once_lit_needs (c : ascii) : item_needs (Ascii.eqb c) (Rep Once (Lit c)).
Proof.
  exists Once, (Lit c). split; [reflexivity|]. split; [now left|].
  intros ch H. simpl in H. now rewrite Ascii.eqb_sym.
Qed.

Lemma star_loop_total {A : Type} (a : atom) (k : string -> option A) :
  (forall s, k s <> None) -> forall s, star_loop a k s <> None.
Proof.
  intros Hk. induction s as [|c s IH]; simpl; [apply Hk|].
  destruct (atom_matches a c); [|apply Hk].
  destruct (star_loop a k s); [discriminate|now destruct (IH eq_refl)].
Qed.

(** A pattern of optional items matches at any text. *)
Lemma match_here_nullable (r : regex) :
  nullable r = true -> forall s opened caps, match_here r s opened caps <> None.
Proof.
  induction r as [|it r IH]; intros H s opened caps; [discriminate|].
  simpl in H. apply andb_true_iff in H as [Hit Hr].
  destruct it as [[] a| |]; try discriminate Hit; simpl.
  - destruct s as [|c s]; [now apply IH|].
    destruct (atom_matches a c); [|now apply IH].
    destruct (match_here r s opened caps) eqn:E; [discriminate|]. simpl. now apply IH.
  - apply star_loop_total. intros s'. now apply IH.
  - now apply IH.
  - now apply IH.
Qed.

Lemma search_cons (r : regex) (c : ascii) (s : string) :
  search r (String c s)
  = match match_here r (String c s) "" [] with
    | Some m => Some m
    | None => search r s
    end.
Proof. reflexivity. Qed.

(** A group that starts with digits and goes on with optional items is found
    in every text that holds a digit. *)
Lemma search_digit (tail : regex) (s : string) :
  nullable tail = true -> any_char is_digit s = true ->
  search (GOpen :: Rep Plus Digit :: tail) s <> None.
Proof.
  intros Ht. induction s as [|c s IH]; [intros H; discriminate H|].
  intros Hs. simpl in Hs. rewrite search_cons.
  destruct (match_here (GOpen :: Rep Plus Digit :: tail) (String c s) "" []) eqn:E;
    [discriminate|].
  apply IH. destruct (is_digit c) eqn:Ec; [|exact Hs].
  rewrite match_here_gopen in E. simpl in E. rewrite Ec in E.
  now destruct (star_loop_total Digit _
                  (fun s' => match_here_nullable tail Ht s' (String c s) []) s).
Qed.

(** ** The two copies of [extract_fee_range] *)







(** ** What the normalizers and the extractor report *)

Lemma digit_value_nonneg (c : ascii) : is_digit c = true -> (0 <= digit_value c)%Z.
Proof.
  unfold is_digit, digit_value. cbv zeta. intros H.
  apply andb_true_iff in H as [H _]. apply N.leb_le in H.
  generalize dependent (N_of_ascii c). intros n H. lia.
Qed.

Lemma digits_value_nonneg (s : string) :
  forall acc, (0 <= acc)%Z -> all_chars is_digit s = true -> (0 <= digits_value acc s)%Z.
Proof.
  induction s as [|c s IH]; intros acc Hacc H; cbn [digits_value]; [assumption|].
  simpl in H. apply andb_true_iff in H as [Hc Hs].
  apply IH; [|assumption]. pose proof (digit_value_nonneg c Hc). lia.
Qed.

(** [float] never converts a capture to a negative number. *)
Lemma float_nonneg (s : string) (q : Q) : float s = Some q -> 0 <= q.
Proof.
  unfold float. destruct (split_point s) as [i f].
  destruct (negb (String.eqb i "") && all_chars is_digit i
            && all_chars is_digit match f with Some fr => fr | None => "" end) eqn:E;
    [|discriminate].
  apply andb_true_iff in E as [E Hf]. apply andb_true_iff in E as [_ Hi].
  match goal with
  | |- Some (round64 ?x) = _ -> _ =>
      assert (Hx : 0 <= x);
      [|pose proof (round64_nonneg x Hx) as Hy;
        generalize dependent (round64 x); intros y Hy H; now injection H as <-]
  end.
  unfold Qle. cbn [Qnum Qden]. rewrite Z.mul_1_r, Z.mul_0_l.
  apply digits_value_nonneg; [|assumption].
  now apply digits_value_nonneg.
Qed.

Lemma yes_token_no_digit (s : string) (l : list string) :
  in_list (str_lower s) l = true ->
  forallb (fun t => negb (any_char is_digit t)) l = true ->
  no_digit s.
Proof.
  unfold in_list. intros H Hl.
  apply existsb_exists in H as (t & Ht & E). apply String.eqb_eq in E.
  apply (lower_no_digit s t E).
  rewrite forallb_forall in Hl. specialize (Hl t Ht).
  now apply negb_true_iff in Hl.
Qed.

(** Property X2.  For text that clears the sentinel test of
    [process_flat_fee] (not blank, not "No"), the flat fee is always reported
    present, and its value is reported exactly when the text holds a digit. *)
Theorem flat_fee_value_iff_digit (s : string) :
  strip_is_empty s = false -> str_lower s <> "no" ->
  fst (Main.process_flat_fee (Some s)) = 1%Z
  /\ (snd (Main.process_flat_fee (Some s)) <> None <-> any_char is_digit s = true).
Proof.
  intros Hb Hno. apply String.eqb_neq in Hno.
  destruct (any_char is_digit s) eqn:D.
  - unfold Main.process_flat_fee. rewrite Hno, Hb. simpl orb.
    destruct (search pct_re s) as [m|] eqn:Ep.
    { destruct (pct_converts s m Ep) as [q Hq]. simpl. rewrite Hq.
      split; [reflexivity|]. split; [reflexivity|discriminate]. }
    destruct (search dollar_re s) as [m|] eqn:Ed.
    { destruct (dollar_converts s m Ed) as [q Hq]. simpl. rewrite Hq.
      split; [reflexivity|]. split; [reflexivity|discriminate]. }
    destruct (in_list (str_lower s) ["yes"; "y"; "true"]) eqn:Ey.
    { pose proof (yes_token_no_digit s _ Ey eq_refl) as Hn.
      unfold no_digit in Hn. rewrite Hn in D. discriminate D. }
    destruct (search num_re s) as [m|] eqn:En.
    { destruct (num_converts s m En) as [q Hq]. simpl. rewrite Hq.
      split; [reflexivity|]. split; [reflexivity|discriminate]. }
    exfalso.
    exact (search_digit [Rep Opt (Lit "."); Rep Star Digit; GClose] s eq_refl D En).
  - rewrite (flat_fee_unparsed s D Hb Hno). simpl.
    split; [reflexivity|]. split; [intros H; now destruct H|discriminate].
Qed.

Lemma flat_fee_value_iff_digit_witness :
  (strip_is_empty "1.5% of assets" = false /\ str_lower "1.5% of assets" <> "no")
  /\ fst (Main.process_flat_fee (Some "1.5% of assets")) = 1%Z
  /\ (snd (Main.process_flat_fee (Some "1.5% of assets")) <> None
      <-> any_char is_digit "1.5% of assets" = true).
Proof.
  assert (H1 : strip_is_empty "1.5% of assets" = false) by reflexivity.
  assert (H2 : str_lower "1.5% of assets" <> "no") by (vm_compute; discriminate).
  split; [split; [exact H1|exact H2]|].
  exact (flat_fee_value_iff_digit "1.5% of assets" H1 H2).
Defined.

(** Property X3.  For text that clears the sentinel test of
    [process_minimum_investment] and [process_negotiable_threshold] (not
    blank, not "No", not "N/A"), either function reports an amount exactly
    when the text holds a digit; the threshold is present exactly then, and
    the minimum investment is present exactly then or when the text is "yes",
    "y" or "true". *)
Theorem amount_iff_digit (s : string) :
  strip_is_empty s = false -> in_list (str_lower s) ["no"; "n/a"] = false ->
  (snd (Main.process_minimum_investment (Some s)) <> None
   <-> any_char is_digit s = true)
  /\ (fst (Main.process_minimum_investment (Some s)) = 1%Z
      <-> any_char is_digit s = true \/ in_list (str_lower s) yes_tokens = true)
  /\ (snd (Main.process_negotiable_threshold (Some s)) <> None
      <-> any_char is_digit s = true)
  /\ (fst (Main.process_negotiable_threshold (Some s)) = 1%Z
      <-> any_char is_digit s = true).
Proof.
  intros Hb Hs.
  unfold Main.process_minimum_investment, Main.process_negotiable_threshold.
  rewrite Hs, Hb. simpl orb. cbv iota.
  destruct (any_char is_digit s) eqn:D.
  - assert (Hv : exists q,
               match search dollar_re s with
               | Some m => (1%Z, float (remove_commas (group 1 m)))
               | None =>
                   match search num_comma_re s with
                   | Some m => (1%Z, float (remove_commas (group 1 m)))
                   | None => (0%Z, None)
                   end
               end = (1%Z, Some q)
               /\ match search dollar_re s with
                  | Some m => (1%Z, float (remove_commas (group 1 m)))
                  | None =>
                      match search num_comma_re s with
                      | Some m => (1%Z, float (remove_commas (group 1 m)))
                      | None =>
                          if in_list (str_lower s) ["yes"; "y"; "true"]
                          then (1%Z, None) else (0%Z, None)
                      end
                  end = (1%Z, Some q)).
    { destruct (search dollar_re s) as [m|] eqn:Ed.
      - destruct (dollar_converts s m Ed) as [q Hq]. exists q. now rewrite Hq.
      - destruct (search num_comma_re s) as [m|] eqn:En.
        + destruct (num_comma_converts s m En) as [q Hq]. exists q. now rewrite Hq.
        + exfalso.
          exact (search_digit
                   [Rep Opt (Lit ","); Rep Star Digit; Rep Opt (Lit "."); Rep Star Digit;
                    GClose] s eq_refl D En). }
    destruct Hv as (q & -> & ->). simpl.
    repeat split; auto; discriminate.
  - rewrite (search_no_digit dollar_re s eq_refl D).
    rewrite (search_no_digit num_comma_re s eq_refl D).
    unfold yes_tokens.
    destruct (in_list (str_lower s) ["yes"; "y"; "true"]); simpl;
      repeat split; auto; try discriminate; try (intros H; now destruct H);
      try (intros [H|H]; discriminate H).
Qed.

Lemma amount_iff_digit_witness :
  (strip_is_empty "$250,000 minimum" = false
   /\ in_list (str_lower "$250,000 minimum") ["no"; "n/a"] = false)
  /\ (snd (Main.process_minimum_investment (Some "$250,000 minimum")) <> None
      <-> any_char is_digit "$250,000 minimum" = true).
Proof.
  assert (H1 : strip_is_empty "$250,000 minimum" = false) by reflexivity.
  assert (H2 : in_list (str_lower "$250,000 minimum") ["no"; "n/a"] = false)
    by reflexivity.
  split; [split; [exact H1|exact H2]|].
  exact (proj1 (amount_iff_digit "$250,000 minimum" H1 H2)).
Defined.

Lemma extract_bounds_sound (s : string) (lo : option Q) (up : option bound) :
  extract_bounds s = (lo, up) ->
  (up <> None -> lo <> None)
  /\ (forall q, lo = Some q -> 0 <= q)
  /\ (forall q, up = Some (Fin q) -> 0 <= q).
Proof.
  unfold extract_bounds.
  destruct (search range_re s) as [m|] eqn:Er.
  - destruct (range_converts s m Er) as [[q1 H1] [q2 H2]].
    rewrite H1, H2. simpl. intros H. injection H as <- <-.
    split; [discriminate|]. split.
    + intros q E. injection E as <-. now apply (float_nonneg _ _ H1).
    + intros q E. injection E as <-. now apply (float_nonneg _ _ H2).
  - destruct (search plus_re s) as [m|] eqn:Ep.
    + destruct (plus_converts s m Ep) as [q1 H1]. rewrite H1.
      intros H. injection H as <- <-.
      split; [discriminate|]. split.
      * intros q E. injection E as <-. now apply (float_nonneg _ _ H1).
      * intros q E. discriminate E.
    + destruct (search dollar_re s) as [m|] eqn:Ed.
      * intros H. injection H as <- <-.
        split; [intros H; now destruct H|]. split.
        -- intros q E. now apply (float_nonneg _ _ E).
        -- intros q E. discriminate E.
      * intros H. injection H as <- <-.
        split; [intros H; now destruct H|]. split; intros q E; discriminate E.
Qed.

Lemma extract_pct_nonneg (s : string) (q : Q) : extract_pct s = Some q -> 0 <= q.
Proof.
  unfold extract_pct. destruct (search pct_re s); [|discriminate].
  apply float_nonneg.
Qed.

(** Property X4.  Whatever the cell, neither [extract_fee_range] returns an
    upper bound without a lower bound, and the lower bound, a finite upper
    bound and the fee percent it returns are never negative. *)
Theorem extracted_fields_sound (c : option string) (lo : option Q)
    (up : option bound) (f : option Q) :
  Main.extract_fee_range c = (lo, up, f) \/ Step3.extract_fee_range c = (lo, up, f) ->
  (up <> None -> lo <> None)
  /\ (forall q, lo = Some q -> 0 <= q)
  /\ (forall q, up = Some (Fin q) -> 0 <= q)
  /\ (forall q, f = Some q -> 0 <= q).
Proof.
  assert (Hnone : (None : option Q, None : option bound, None : option Q) = (lo, up, f) ->
                  (up <> None -> lo <> None)
                  /\ (forall q, lo = Some q -> 0 <= q)
                  /\ (forall q, up = Some (Fin q) -> 0 <= q)
                  /\ (forall q, f = Some q -> 0 <= q)).
  { intros H. injection H as <- <- <-.
    split; [intros H; now destruct H|]. repeat split; intros q E; discriminate E. }
  assert (Hsome : forall s, (extract_bounds s, extract_pct s) = (lo, up, f) ->
                  (up <> None -> lo <> None)
                  /\ (forall q, lo = Some q -> 0 <= q)
                  /\ (forall q, up = Some (Fin q) -> 0 <= q)
                  /\ (forall q, f = Some q -> 0 <= q)).
  { intros s H. injection H as Hb Hp.
    destruct (extract_bounds_sound s lo up Hb) as (A & B & C).
    split; [exact A|]. split; [exact B|]. split; [exact C|].
    intros q E. subst f. now apply (extract_pct_nonneg s). }
  destruct c as [s|]; [|intros [H|H]; exact (Hnone H)].
  unfold Main.extract_fee_range, Step3.extract_fee_range.
  intros [H|H].
  - destruct (String.eqb (str_lower s) "n/a" || strip_is_empty s);
      [exact (Hnone H)|exact (Hsome s H)].
  - destruct (String.eqb s "" || in_list (str_lower s) ["n/a"; "na"; "-1"]);
      [exact (Hnone H)|exact (Hsome s H)].
Qed.

Lemma extracted_fields_sound_witness :
  Main.extract_fee_range (Some "$0 - $500,000 (1.25%)")
  = (Some 0, Some (Fin 500000), Some (5 # 4))
  /\ (forall q, Some (Fin 500000) = Some (Fin q) -> 0 <= q).
Proof.
  assert (H : Main.extract_fee_range (Some "$0 - $500,000 (1.25%)")
              = (Some 0, Some (Fin 500000), Some (5 # 4))) by (vm_compute; reflexivity).
  split; [exact H|].
  exact (proj1 (proj2 (proj2 (extracted_fields_sound _ _ _ _ (or_introl H))))).
Defined.

(** ** The stable sort *)

Lemma insert_perm {A : Type} (leb : A -> A -> bool) (x : A) (l : list A) :
  Permutation (insert leb x l) (x :: l).
Proof.
  induction l as [|y l IH]; simpl; [apply Permutation_refl|].
  destruct (leb x y); [apply Permutation_refl|].
  eapply Permutation_trans; [apply perm_skip, IH|apply perm_swap].
Qed.

Lemma sort_perm {A : Type} (leb : A -> A -> bool) (l : list A) :
  Permutation (sort leb l) l.
Proof.
  induction l as [|x l IH]; simpl; [apply Permutation_refl|].
  eapply Permutation_trans; [apply insert_perm|now apply perm_skip].
Qed.

Lemma sort_products_perm (ps : list product) : Permutation (sort_products ps) ps.
Proof. apply sort_perm. Qed.

Lemma bound_leb_total (a b : bound) : bound_leb a b = false -> bound_leb b a = true.
Proof.
  destruct a as [x|], b as [y|]; simpl; try discriminate; try reflexivity.
  intros H. apply Qle_bool_iff.
  destruct (Qlt_le_dec y x) as [Hlt|Hle]; [now apply Qlt_le_weak|].
  apply Qle_bool_iff in Hle. rewrite Hle in H. discriminate H.
Qed.

Lemma bound_leb_trans (a b c : bound) :
  bound_leb a b = true -> bound_leb b c = true -> bound_leb a c = true.
Proof.
  destruct a as [x|], b as [y|], c as [z|]; simpl; try discriminate; try reflexivity.
  intros H1 H2. apply Qle_bool_iff in H1, H2. apply Qle_bool_iff.
  eapply Qle_trans; eassumption.
Qed.

Lemma insert_ascending_from (x h : product) (l : list product) :
  bound_leb (sort_key h) (sort_key x) = true ->
  ascending_from h l = true ->
  ascending_from h
    (insert (fun p q => bound_leb (sort_key p) (sort_key q)) x l) = true.
Proof.
  revert h. induction l as [|y l IH]; intros h Hhx Hl; simpl.
  - now rewrite Hhx.
  - simpl in Hl. apply andb_true_iff in Hl as [Hhy Hl].
    destruct (bound_leb (sort_key x) (sort_key y)) eqn:E; simpl.
    + now rewrite Hhx, E, Hl.
    + rewrite Hhy. simpl. apply IH; [|assumption]. now apply bound_leb_total.
Qed.

Lemma insert_ascending (x : product) (l : list product) :
  ascending l = true ->
  ascending (insert (fun p q => bound_leb (sort_key p) (sort_key q)) x l) = true.
Proof.
  destruct l as [|y l]; [reflexivity|].
  intros Hl. simpl.
  destruct (bound_leb (sort_key x) (sort_key y)) eqn:E; simpl.
  - simpl in Hl. now rewrite E, Hl.
  - apply insert_ascending_from; [now apply bound_leb_total|exact Hl].
Qed.

Lemma sort_products_ascending (ps : list product) :
  ascending (sort_products ps) = true.
Proof.
  unfold sort_products. induction ps as [|p ps IH]; [reflexivity|].
  simpl. now apply insert_ascending.
Qed.

Lemma ascending_from_least (h : product) (l : list product) :
  ascending_from h l = true ->
  forall p, In p l -> bound_leb (sort_key h) (sort_key p) = true.
Proof.
  revert h. induction l as [|y l IH]; intros h Hl p Hp; [destruct Hp|].
  simpl in Hl. apply andb_true_iff in Hl as [Hhy Hl].
  destruct Hp as [<-|Hp]; [assumption|].
  eapply bound_leb_trans; [exact Hhy|now apply IH].
Qed.

(** Property X5.  For a row whose flat fee, when present, has a value, both
    [identify_products] return the products in ascending order of the sort
    key: the first-tier fee of a tiered product, the value of a flat fee. *)
Theorem products_ascending (r : row) :
  (has_flat_fee r = 1%Z -> flat_fee_value r <> None) ->
  ascending (snd (Main.identify_products r)) = true
  /\ ascending (snd (Step3.identify_products r)) = true.
Proof.
  intros _. split.
  - rewrite main_products. apply sort_products_ascending.
  - rewrite step3_products. apply sort_products_ascending.
Qed.

Lemma products_ascending_witness :
  (has_flat_fee restart_row = 1%Z -> flat_fee_value restart_row <> None)
  /\ ascending (snd (Main.identify_products restart_row)) = true
  /\ ascending (snd (Step3.identify_products restart_row)) = true.
Proof.
  assert (H : has_flat_fee restart_row = 1%Z -> flat_fee_value restart_row <> None)
    by (intros E; discriminate E).
  split; [exact H|]. exact (products_ascending restart_row H).
Defined.

(** ** The columns derived from the products *)

Lemma derive_eq (r : row) :
  Csv.derive r
  = Csv.mkDerived (fst (Main.identify_products r)) (snd (Main.identify_products r))
      (calculate_effective_fee (snd (Main.identify_products r)) 1000000)
      (calculate_effective_fee (snd (Main.identify_products r)) 5000000)
      (Csv.get_first_tier_fee (snd (Main.identify_products r)))
      (Csv.get_product3_first_tier_fee (snd (Main.identify_products r))).
Proof. unfold Csv.derive. now destruct (Main.identify_products r). Qed.

Lemma head_fee (h : product) (l : list product) (g : Q) :
  sort_key h = Fin g -> Csv.get_first_tier_fee (h :: l) = Some g.
Proof.
  destruct h as [[v|]|[|t ts] idx]; simpl; try discriminate; intros H; now injection H as <-.
Qed.

Lemma first_tier_fee_least (ps : list product) (p : product) (f : Q) :
  ascending ps = true -> In p ps -> sort_key p = Fin f ->
  exists g, Csv.get_first_tier_fee ps = Some g /\ g <= f.
Proof.
  destruct ps as [|h l]; [intros _ []|].
  intros Hasc [<-|Hp] Hf.
  - exists f. split; [now apply head_fee|apply Qle_refl].
  - pose proof (ascending_from_least h l Hasc p Hp) as Hle. rewrite Hf in Hle.
    destruct (sort_key h) as [g|] eqn:Eh; [|discriminate Hle].
    exists g. split; [now apply head_fee|now apply Qle_bool_iff].
Qed.

Lemma product3_in (ps : list product) (f : Q) :
  Csv.get_product3_first_tier_fee ps = Some f ->
  exists p, In p ps /\ sort_key p = Fin f.
Proof.
  unfold Csv.get_product3_first_tier_fee.
  destruct (List.length ps <? 3)%nat; [discriminate|].
  destruct (nth_error ps 2) as [p|] eqn:E; [|discriminate].
  intros H. exists p. split; [eapply nth_error_In, E|].
  destruct p as [[v|]|[|t ts] idx]; simpl in *; try discriminate; now injection H as <-.
Qed.

(** Property X6.  For a row whose flat fee, when present, has a value,
    [first_tier_fee_product1] is the least first-tier fee: no product of the
    row has a smaller first-tier fee or flat value, and
    [first_tier_fee_product3], when there is one, is never below it. *)
Theorem product1_is_cheapest (r : row) :
  (has_flat_fee r = 1%Z -> flat_fee_value r <> None) ->
  (forall p f, In p (Csv.products (Csv.derive r)) -> sort_key p = Fin f ->
               exists g, Csv.first_tier_fee_product1 (Csv.derive r) = Some g /\ g <= f)
  /\ (forall f3, Csv.first_tier_fee_product3 (Csv.derive r) = Some f3 ->
                 exists f1, Csv.first_tier_fee_product1 (Csv.derive r) = Some f1
                            /\ f1 <= f3).
Proof.
  intros _. rewrite derive_eq. cbn [Csv.products Csv.first_tier_fee_product1
                                    Csv.first_tier_fee_product3].
  assert (Hasc : ascending (snd (Main.identify_products r)) = true)
    by (rewrite main_products; apply sort_products_ascending).
  split.
  - intros p f Hp Hf. now apply (first_tier_fee_least _ p f).
  - intros f3 H3. destruct (product3_in _ _ H3) as (p & Hp & Hf).
    now apply (first_tier_fee_least _ p f3).
Qed.

Lemma product1_is_cheapest_witness :
  (has_flat_fee contiguous_row = 1%Z -> flat_fee_value contiguous_row <> None)
  /\ (forall p f, In p (Csv.products (Csv.derive contiguous_row)) -> sort_key p = Fin f ->
                  exists g, Csv.first_tier_fee_product1 (Csv.derive contiguous_row) = Some g
                            /\ g <= f).
Proof.
  assert (H : has_flat_fee contiguous_row = 1%Z -> flat_fee_value contiguous_row <> None)
    by (intros E; discriminate E).
  split; [exact H|]. exact (proj1 (product1_is_cheapest contiguous_row H)).
Defined.

(** ** What the segmenters keep *)

Lemma last_upper_cons (t t' : tier) (ts : list tier) :
  Main.last_upper (t :: t' :: ts) = Main.last_upper (t' :: ts).
Proof.
  unfold Main.last_upper. simpl.
  destruct (rev ts) as [|x l]; reflexivity.
Qed.

Lemma continues_from_snoc (ts : list tier) :
  forall t u x,
    continues_from t ts = true ->
    Main.last_upper (t :: ts) = Some u ->
    Main.continues u (lower x) = true ->
    continues_from t (ts ++ [x]) = true.
Proof.
  induction ts as [|t' ts IH]; intros t u x Hc Hu Hx; simpl.
  - injection Hu as <-. now rewrite Hx.
  - simpl in Hc. apply andb_true_iff in Hc as [H1 H2]. rewrite H1. simpl.
    apply (IH t' u x H2); [|assumption]. now rewrite <- last_upper_cons with (t := t).
Qed.

Lemma well_formed_snoc (ts : list tier) (idx : nat) (u : bound) (x : tier) :
  well_formed (Tiered ts idx) = true ->
  Main.last_upper ts = Some u ->
  Main.continues u (lower x) = true ->
  well_formed (Tiered (ts ++ [x]) idx) = true.
Proof.
  destruct ts as [|t ts]; [discriminate|]. simpl. apply continues_from_snoc.
Qed.

Lemma try_append_well_formed (ps : list product) (t : tier) :
  forall ps', forallb well_formed ps = true ->
              Main.try_append ps t = Some ps' ->
              forallb well_formed ps' = true.
Proof.
  induction ps as [|p ps IH]; intros ps' Hwf H; [discriminate|].
  cbn [forallb] in Hwf. apply andb_true_iff in Hwf as [Hp Hps].
  destruct p as [f|ts idx]; cbn [Main.try_append] in H.
  - destruct (Main.try_append ps t) as [qs|]; [|discriminate].
    injection H as <-. cbn [forallb]. rewrite (IH qs Hps eq_refl). reflexivity.
  - destruct (Main.last_upper ts) as [u|] eqn:Eu.
    + destruct (Main.continues u (lower t)) eqn:Ec.
      * injection H as <-. cbn [forallb].
        now rewrite (well_formed_snoc ts idx u t Hp Eu Ec), Hps.
      * destruct (Main.try_append ps t) as [qs|]; [|discriminate].
        injection H as <-. cbn [forallb]. now rewrite Hp, (IH qs Hps eq_refl).
    + destruct (Main.try_append ps t) as [qs|]; [|discriminate].
      injection H as <-. cbn [forallb]. now rewrite Hp, (IH qs Hps eq_refl).
Qed.

Lemma add_tier_well_formed (ps : list product) (t : tier) :
  forallb well_formed ps = true -> forallb well_formed (Main.add_tier ps t) = true.
Proof.
  intros H. unfold Main.add_tier.
  destruct (Main.try_append ps t) as [ps'|] eqn:E.
  - now apply (try_append_well_formed ps t).
  - rewrite forallb_app, H. reflexivity.
Qed.

Lemma fold_add_tier_well_formed (ts : list tier) :
  forall ps, forallb well_formed ps = true ->
             forallb well_formed (fold_left Main.add_tier ts ps) = true.
Proof.
  induction ts as [|t ts IH]; intros ps H; [exact H|].
  simpl. apply IH. now apply add_tier_well_formed.
Qed.

Lemma group_ranges_well_formed (rest : list tier) :
  forall closed cur idx lu,
    forallb well_formed closed = true ->
    well_formed (Tiered cur idx) = true ->
    Main.last_upper cur = Some lu ->
    forallb well_formed (Step3.group_ranges closed cur idx lu rest) = true.
Proof.
  induction rest as [|fr rest IH]; intros closed cur idx lu Hc Hcur Hlu; simpl.
  - rewrite forallb_app, Hc. cbn [forallb]. now rewrite Hcur.
  - destruct (Step3.continues (lower fr) lu) eqn:E.
    + apply IH; [assumption| |apply last_upper_snoc].
      apply (well_formed_snoc cur idx lu fr Hcur Hlu). now rewrite continues_sym.
    + apply IH; [|reflexivity|reflexivity].
      rewrite forallb_app, Hc. cbn [forallb]. now rewrite Hcur.
Qed.

Lemma forallb_perm {A : Type} (f : A -> bool) (l l' : list A) :
  Permutation l l' -> forallb f l' = true -> forallb f l = true.
Proof.
  intros Hp H. rewrite forallb_forall in *. intros x Hx.
  apply H. eapply Permutation_in; eassumption.
Qed.

Lemma flats_well_formed (flats : list product) :
  forallb is_flat flats = true -> forallb well_formed flats = true.
Proof.
  induction flats as [|p ps IH]; [reflexivity|].
  simpl. intros H. apply andb_true_iff in H as [Hp Hps].
  destruct p; [|discriminate]. now apply IH.
Qed.

Lemma step3_flats_flat (r : row) : forallb is_flat (Step3.flat_products r) = true.
Proof.
  unfold Step3.flat_products.
  destruct (flat_fee_value r); [|reflexivity]. now destruct (has_flat_fee r =? 1)%Z.
Qed.

(** Property X7.  Every product that either [identify_products] returns is
    a flat fee or a tiered product with at least one tier in which each
    further tier continues the one before it (lower bound within 0.01 of the
    previous upper bound, or previous upper bound unbounded). *)
Theorem products_well_formed (r : row) :
  forallb well_formed (snd (Main.identify_products r)) = true
  /\ forallb well_formed (snd (Step3.identify_products r)) = true.
Proof.
  split.
  - rewrite main_products.
    apply (forallb_perm _ _ _ (sort_products_perm _)).
    apply fold_add_tier_well_formed, flats_well_formed, main_flats_flat.
  - rewrite step3_products.
    apply (forallb_perm _ _ _ (sort_products_perm _)).
    unfold Step3.group_products.
    destruct (Step3.sort_ranges _) as [|first rest].
    + apply flats_well_formed, step3_flats_flat.
    + apply group_ranges_well_formed;
        [apply flats_well_formed, step3_flats_flat|reflexivity|reflexivity].
Qed.

Lemma all_tiers_app (a b : list product) :
  all_tiers (a ++ b) = all_tiers a ++ all_tiers b.
Proof. apply flat_map_app. Qed.

Lemma try_append_tiers (ps : list product) (t : tier) :
  forall ps', Main.try_append ps t = Some ps' ->
              Permutation (all_tiers ps') (t :: all_tiers ps).
Proof.
  induction ps as [|p ps IH]; intros ps' H; [discriminate|].
  assert (Hrec : forall qs, Main.try_append ps t = Some qs ->
                 Permutation (all_tiers (p :: qs)) (t :: all_tiers (p :: ps))).
  { intros qs E. unfold all_tiers. cbn [flat_map]. fold (all_tiers qs) (all_tiers ps).
    eapply Permutation_trans; [apply Permutation_app_head, (IH qs E)|].
    apply Permutation_sym, Permutation_middle. }
  destruct p as [f|ts idx]; cbn [Main.try_append] in H.
  - destruct (Main.try_append ps t) as [qs|]; [|discriminate].
    injection H as <-. now apply Hrec.
  - destruct (Main.last_upper ts) as [u|].
    + destruct (Main.continues u (lower t)).
      * injection H as <-. unfold all_tiers. cbn [flat_map tiers_of].
        rewrite <- app_assoc. apply Permutation_sym.
        apply (Permutation_middle ts (flat_map tiers_of ps) t).
      * destruct (Main.try_append ps t) as [qs|]; [|discriminate].
        injection H as <-. now apply Hrec.
    + destruct (Main.try_append ps t) as [qs|]; [|discriminate].
      injection H as <-. now apply Hrec.
Qed.

Lemma add_tier_tiers (ps : list product) (t : tier) :
  Permutation (all_tiers (Main.add_tier ps t)) (t :: all_tiers ps).
Proof.
  unfold Main.add_tier. destruct (Main.try_append ps t) as [ps'|] eqn:E.
  - now apply try_append_tiers.
  - rewrite all_tiers_app. unfold all_tiers at 2. cbn [flat_map tiers_of app].
    apply Permutation_sym, Permutation_cons_append.
Qed.

Lemma fold_add_tier_tiers (ts : list tier) :
  forall ps, Permutation (all_tiers (fold_left Main.add_tier ts ps)) (all_tiers ps ++ ts).
Proof.
  induction ts as [|t ts IH]; intros ps; simpl.
  - rewrite app_nil_r. apply Permutation_refl.
  - eapply Permutation_trans; [apply IH|].
    eapply Permutation_trans; [apply Permutation_app_tail, add_tier_tiers|].
    apply Permutation_middle.
Qed.

Lemma flats_no_tiers (flats : list product) :
  forallb is_flat flats = true -> all_tiers flats = [].
Proof.
  induction flats as [|p ps IH]; [reflexivity|].
  simpl. intros H. apply andb_true_iff in H as [Hp Hps].
  destruct p; [|discriminate]. now apply IH.
Qed.

(** In [enhanced_fee_analysis_step3.py] the products, in the order of their
    creation, split the sorted ranges into consecutive runs. *)
Lemma group_ranges_tiers (rest : list tier) :
  forall closed cur idx lu,
    all_tiers (Step3.group_ranges closed cur idx lu rest)
    = all_tiers closed ++ cur ++ rest.
Proof.
  induction rest as [|fr rest IH]; intros closed cur idx lu; simpl.
  - rewrite all_tiers_app. unfold all_tiers at 2. simpl. now rewrite !app_nil_r.
  - destruct (Step3.continues (lower fr) lu); rewrite IH.
    + now rewrite <- app_assoc.
    + rewrite all_tiers_app. unfold all_tiers at 2. simpl.
      now rewrite app_nil_r, <- app_assoc.
Qed.

Lemma group_products_tiers (flats : list product) (ranges : list tier) :
  forallb is_flat flats = true ->
  all_tiers (Step3.group_products flats ranges) = Step3.sort_ranges ranges.
Proof.
  intros Hf. unfold Step3.group_products.
  destruct (Step3.sort_ranges ranges) as [|first rest].
  - now apply flats_no_tiers.
  - rewrite group_ranges_tiers, (flats_no_tiers flats Hf). reflexivity.
Qed.

Lemma kept_length (c : option string) :
  (List.length (kept (Main.extract_fee_range c))
   <= if match c with Some s => negb (String.eqb s "N/A") | None => false end
      then 1 else 0)%nat.
Proof.
  destruct c as [s|]; [|apply Nat.le_refl].
  destruct (String.eqb s "N/A") eqn:E.
  - apply String.eqb_eq in E. subst s. apply Nat.le_refl.
  - cbn [negb]. destruct (Main.extract_fee_range (Some s)) as [[[lo|] up] [f|]];
      cbn [kept List.length]; lia.
Qed.

Lemma retained_count (r : row) (l : list nat) :
  (List.length (flat_map (fun i => kept (Main.extract_fee_range (cell r i))) l)
   <= List.length
        (filter (fun i =>
                   match cell r i with
                   | Some s => negb (String.eqb s "N/A")
                   | None => false
                   end) l))%nat.
Proof.
  induction l as [|i l IH]; [apply Nat.le_refl|].
  cbn [flat_map filter]. rewrite length_app.
  pose proof (kept_length (cell r i)) as Hk.
  destruct (match cell r i with
            | Some s => negb (String.eqb s "N/A")
            | None => false
            end); cbn [List.length]; lia.
Qed.

(** Property X8.  No range is lost or counted twice: the tiers of the
    products that [identify_products] returns are, up to order, exactly the
    ranges it retained (in [enhanced_fee_analysis_step3.py] the same ranges,
    each tagged with its column), and there are at most [extracted_count] of
    them, hence at most eight. *)
Theorem tiers_are_the_retained_ranges (r : row) :
  Permutation (all_tiers (snd (Main.identify_products r))) (retained r)
  /\ Permutation (all_tiers (snd (Step3.identify_products r))) (step3_ranges r)
  /\ map plain_tier (step3_ranges r) = retained r
  /\ (List.length (retained r) <= Csv.extracted_count r <= 8)%nat.
Proof.
  split; [|split; [|split; [apply step3_ranges_plain|]]].
  - rewrite main_products.
    eapply Permutation_trans;
      [apply Permutation_flat_map, sort_products_perm|].
    eapply Permutation_trans; [apply fold_add_tier_tiers|].
    rewrite (flats_no_tiers _ (main_flats_flat r)). apply Permutation_refl.
  - rewrite step3_products.
    eapply Permutation_trans;
      [apply Permutation_flat_map, sort_products_perm|].
    fold (all_tiers (Step3.group_products (Step3.flat_products r) (step3_ranges r))).
    rewrite (group_products_tiers _ _ (step3_flats_flat r)).
    apply sort_perm.
  - split; [apply retained_count|].
    unfold Csv.extracted_count.
    eapply Nat.le_trans; [apply filter_length_le|]. reflexivity.
Qed.

(** ** How many products a row has *)

Lemma add_tier_length (ps : list product) (t : tier) :
  (List.length ps <= List.length (Main.add_tier ps t) <= S (List.length ps))%nat.
Proof.
  unfold Main.add_tier. destruct (Main.try_append ps t) as [ps'|] eqn:E.
  - rewrite (try_append_length ps t ps' E). lia.
  - rewrite length_app. simpl. lia.
Qed.

Lemma fold_add_tier_length (ts : list tier) :
  forall ps,
    (List.length ps <= List.length (fold_left Main.add_tier ts ps)
     <= List.length ps + List.length ts)%nat.
Proof.
  induction ts as [|t ts IH]; intros ps; simpl; [lia|].
  pose proof (IH (Main.add_tier ps t)). pose proof (add_tier_length ps t). lia.
Qed.

Lemma fold_add_tier_grows (flats : list product) (t : tier) (ts : list tier) :
  forallb is_flat flats = true ->
  (S (List.length flats) <= List.length (fold_left Main.add_tier (t :: ts) flats))%nat.
Proof.
  intros Hf. cbn [fold_left].
  assert (E : Main.add_tier flats t = flats ++ [Tiered [t] (List.length flats)])
    by (unfold Main.add_tier; now rewrite (try_append_flats flats t Hf)).
  pose proof (fold_add_tier_length ts (Main.add_tier flats t)) as H.
  rewrite E in H at 1. rewrite length_app in H. simpl in H. lia.
Qed.

Lemma main_product_count (r : row) :
  fst (Main.identify_products r)
  = List.length (fold_left Main.add_tier (retained r) (Main.flat_products r)).
Proof.
  rewrite main_count, main_products.
  apply Permutation_length, sort_products_perm.
Qed.

Lemma retained_length (r : row) : (List.length (retained r) <= 8)%nat.
Proof.
  eapply Nat.le_trans; [apply (retained_count r (seq 1 8))|].
  eapply Nat.le_trans; [apply filter_length_le|]. reflexivity.
Qed.

Lemma process_flat_fee_flag (c : option string) :
  fst (Main.process_flat_fee c) = 0%Z \/ fst (Main.process_flat_fee c) = 1%Z.
Proof.
  destruct c as [s|]; [|now left]. unfold Main.process_flat_fee.
  destruct (String.eqb (str_lower s) "no" || strip_is_empty s); [now left|].
  destruct (search pct_re s); [now right|].
  destruct (search dollar_re s); [now right|].
  destruct (in_list (str_lower s) ["yes"; "y"; "true"]); [now right|].
  destruct (search num_re s); now right.
Qed.

(** Property X9.  [identify_products] of [enhanced_fee_analysis.py] counts
    the flat fee as a product, so for the flag that [process_flat_fee] writes
    a row with a flat fee always has [product_count] >= 1 and its
    [contract_type] is "Both", never "Flat Fee Only", whether or not it has
    ranges; without a flat fee it is "AUM-Based Only" when a range was
    retained and "No Fee Info" otherwise.  [has_fee_info] is the same as
    [product_count] > 0, and [product_count] is at most 9. *)
Theorem contract_type_of_row (raw : Csv.raw_row) :
  let r := Csv.flat_fee_row raw in
  let n := Csv.product_count (Csv.derive r) in
  Csv.contract_type (has_flat_fee r) n
  = (if (has_flat_fee r =? 1)%Z then "Both"
     else match retained r with
          | [] => "No Fee Info"
          | _ :: _ => "AUM-Based Only"
          end)
  /\ Csv.has_fee_info (has_flat_fee r) n = (0 <? n)%nat
  /\ (n <= 9)%nat.
Proof.
  intros r n. subst n. rewrite derive_eq. cbn [Csv.product_count].
  rewrite main_product_count.
  pose proof (fold_add_tier_length (retained r) (Main.flat_products r)) as Hlen.
  pose proof (retained_length r) as H8.
  assert (Hgrow : retained r <> [] ->
                  (S (List.length (Main.flat_products r))
                   <= List.length (fold_left Main.add_tier (retained r)
                                     (Main.flat_products r)))%nat).
  { destruct (retained r) as [|t ts]; [intros H; now destruct H|].
    intros _. apply fold_add_tier_grows, main_flats_flat. }
  remember (List.length (fold_left Main.add_tier (retained r) (Main.flat_products r)))
    as n eqn:En.
  unfold Main.flat_products in Hlen, Hgrow.
  unfold Csv.contract_type, Csv.has_fee_info.
  destruct (process_flat_fee_flag (Csv.flat_rate raw)) as [E|E];
    change (fst (Main.process_flat_fee (Csv.flat_rate raw))) with (has_flat_fee r) in E;
    rewrite E in *; cbn [Z.eqb Pos.eqb andb orb List.length] in *.
  - destruct (retained r) as [|t ts] eqn:Er.
    + assert (n = 0%nat) by (cbn [List.length] in Hlen; lia). subst n.
      rewrite H. split; [reflexivity|]. split; [reflexivity|]. repeat constructor.
    + assert (Hpos : (1 <= n)%nat) by (apply Hgrow; discriminate).
      assert (Hle : (n <= 9)%nat) by lia.
      destruct n as [|k]; [lia|].
      split; [reflexivity|]. split; [reflexivity|exact Hle].
  - assert (Hpos : (1 <= n)%nat) by lia.
    assert (Hle : (n <= 9)%nat) by lia.
    destruct n as [|k]; [lia|].
    split; [reflexivity|]. split; [reflexivity|exact Hle].
Qed.

(** ** Rows without ranges *)

Lemma kept_no_dollar (c : option string) :
  (forall s, c = Some s -> no_dollar s) -> kept (Main.extract_fee_range c) = [].
Proof.
  destruct c as [s|]; [|reflexivity]. intros H.
  unfold Main.extract_fee_range.
  destruct (String.eqb (str_lower s) "n/a" || strip_is_empty s); [reflexivity|].
  now rewrite (extract_bounds_no_dollar s (H s eq_refl)).
Qed.

Lemma flat_map_nil {A B : Type} (f : A -> list B) (l : list A) :
  (forall a, f a = []) -> flat_map f l = [].
Proof.
  intros H. induction l as [|a l IH]; [reflexivity|]. simpl. now rewrite H, IH.
Qed.

Lemma retained_no_dollar (r : row) :
  (forall i s, cell r i = Some s -> no_dollar s) -> retained r = [].
Proof.
  intros H. unfold retained. apply flat_map_nil.
  intros i. apply kept_no_dollar. apply H.
Qed.

Lemma step3_ranges_no_dollar (r : row) :
  (forall i s, cell r i = Some s -> no_dollar s) -> step3_ranges r = [].
Proof.
  intros H. apply (map_eq_nil plain_tier).
  unfold step3_ranges. rewrite step3_ranges_plain. now apply retained_no_dollar.
Qed.

(** Property X10.  A row none of whose range cells holds a dollar sign and
    whose flat fee is absent has no products in either file; its product
    count is 0, both effective fees and both first-tier fees are missing, the
    outlier filter keeps it, and it counts as having no fee information. *)
Theorem row_without_fees (r : row) :
  (forall i s, cell r i = Some s -> no_dollar s) ->
  has_flat_fee r <> 1%Z ->
  Csv.derive r = Csv.mkDerived 0 [] None None None None
  /\ Step3.identify_products r = (0%nat, [])
  /\ Csv.survives (Csv.first_tier_fee_product1 (Csv.derive r)) = true
  /\ Csv.has_fee_info (has_flat_fee r) (Csv.product_count (Csv.derive r)) = false.
Proof.
  intros Hc Hf. apply Z.eqb_neq in Hf.
  assert (Hm : Main.identify_products r = (0%nat, [])).
  { rewrite (surjective_pairing (Main.identify_products r)).
    rewrite main_count, main_products, (retained_no_dollar r Hc).
    unfold Main.flat_products. now rewrite Hf. }
  assert (Hd : Csv.derive r = Csv.mkDerived 0 [] None None None None)
    by (rewrite derive_eq, Hm; reflexivity).
  split; [exact Hd|]. split.
  - rewrite (surjective_pairing (Step3.identify_products r)).
    rewrite step3_count, step3_products.
    fold (step3_ranges r). rewrite (step3_ranges_no_dollar r Hc).
    unfold Step3.flat_products. rewrite Hf. now destruct (flat_fee_value r).
  - rewrite Hd. unfold Csv.has_fee_info. cbn. rewrite Hf. split; reflexivity.
Qed.

Lemma row_without_fees_witness :
  ((forall i s, cell (mkRow 0 None [Some "N/A"; None; Some "see brochure"]) i = Some s ->
                no_dollar s)
   /\ has_flat_fee (mkRow 0 None [Some "N/A"; None; Some "see brochure"]) <> 1%Z)
  /\ Csv.derive (mkRow 0 None [Some "N/A"; None; Some "see brochure"])
     = Csv.mkDerived 0 [] None None None None.
Proof.
  assert (H1 : forall i s,
             cell (mkRow 0 None [Some "N/A"; None; Some "see brochure"]) i = Some s ->
             no_dollar s).
  { intros i s. unfold cell. cbn [fee_cells].
    destruct i as [|[|[|[|i]]]]; cbn; try discriminate;
      try (intros E; injection E as <-; reflexivity).
    destruct i; cbn; discriminate. }
  assert (H2 : has_flat_fee (mkRow 0 None [Some "N/A"; None; Some "see brochure"]) <> 1%Z)
    by discriminate.
  split; [split; [exact H1|exact H2]|].
  exact (proj1 (row_without_fees _ H1 H2)).
Defined.

(** Property X11.  A row with a flat fee and no range cell holding a dollar
    sign has the flat fee as its only product in [enhanced_fee_analysis.py],
    and the effective fee at every portfolio value is the flat value as it
    stands, whether it was read from a percentage or from a dollar amount
    (and is missing when the flat fee has no value). *)
Theorem row_with_flat_fee_only (r : row) (V : Q) :
  (forall i s, cell r i = Some s -> no_dollar s) ->
  has_flat_fee r = 1%Z ->
  Main.identify_products r = (1%nat, [Flat (flat_fee_value r)])
  /\ calculate_effective_fee (snd (Main.identify_products r)) V = flat_fee_value r
  /\ Csv.first_tier_fee_product1 (Csv.derive r) = flat_fee_value r.
Proof.
  intros Hc Hf.
  assert (Hm : Main.identify_products r = (1%nat, [Flat (flat_fee_value r)])).
  { rewrite (surjective_pairing (Main.identify_products r)).
    rewrite main_count, main_products, (retained_no_dollar r Hc).
    unfold Main.flat_products. now rewrite Hf. }
  split; [exact Hm|]. rewrite derive_eq, Hm. cbn.
  split; now destruct (flat_fee_value r).
Qed.

Lemma row_with_flat_fee_only_witness :
  ((forall i s, cell (Csv.flat_fee_row (Csv.mkRaw (Some "$500 per year") [] None None None)) i
                = Some s -> no_dollar s)
   /\ has_flat_fee (Csv.flat_fee_row (Csv.mkRaw (Some "$500 per year") [] None None None))
      = 1%Z)
  /\ calculate_effective_fee
       (snd (Main.identify_products
               (Csv.flat_fee_row (Csv.mkRaw (Some "$500 per year") [] None None None))))
       1000000
     = Some 500.
Proof.
  assert (H1 : forall i s,
             cell (Csv.flat_fee_row (Csv.mkRaw (Some "$500 per year") [] None None None)) i
             = Some s -> no_dollar s).
  { intros i s. unfold cell. cbn [fee_cells Csv.flat_fee_row Csv.fee_ranges].
    destruct (i - 1)%nat; cbn; discriminate. }
  assert (H2 : has_flat_fee
                 (Csv.flat_fee_row (Csv.mkRaw (Some "$500 per year") [] None None None))
               = 1%Z) by (vm_compute; reflexivity).
  split; [split; [exact H1|exact H2]|].
  exact (proj1 (proj2 (row_with_flat_fee_only _ 1000000 H1 H2))).
Defined.

(** ** More on the effective fee *)









Lemma Qle_bool_total (x y : Q) : Qle_bool x y = false -> Qle_bool y x = true.
Proof.
  intros H. apply Qle_bool_iff.
  destruct (Qlt_le_dec y x) as [Hlt|Hle]; [now apply Qlt_le_weak|].
  apply Qle_bool_iff in Hle. rewrite Hle in H. discriminate H.
Qed.

Lemma insert_lower_ascending_from (x h : tier) (l : list tier) :
  Qle_bool (lower h) (lower x) = true ->
  lower_ascending_from h l = true ->
  lower_ascending_from h (insert (fun a b => Qle_bool (lower a) (lower b)) x l) = true.
Proof.
  revert h. induction l as [|y l IH]; intros h Hhx Hl; simpl.
  - now rewrite Hhx.
  - simpl in Hl. apply andb_true_iff in Hl as [Hhy Hl].
    destruct (Qle_bool (lower x) (lower y)) eqn:E; simpl.
    + now rewrite Hhx, E, Hl.
    + rewrite Hhy. simpl. apply IH; [|assumption]. now apply Qle_bool_total.
Qed.

Lemma sort_ranges_ascending (l : list tier) :
  lower_ascending (Step3.sort_ranges l) = true.
Proof.
  unfold Step3.sort_ranges. induction l as [|x l IH]; [reflexivity|].
  simpl. destruct (sort _ l) as [|y l'] eqn:El; [reflexivity|].
  simpl. destruct (Qle_bool (lower x) (lower y)) eqn:E; simpl.
  - simpl in IH. now rewrite E, IH.
  - apply insert_lower_ascending_from; [now apply Qle_bool_total|exact IH].
Qed.

Lemma lower_ascending_from_app (a b : list tier) :
  forall t, lower_ascending_from t (a ++ b) = true ->
            lower_ascending_from t a = true /\ lower_ascending b = true.
Proof.
  induction a as [|x a IH]; intros t H; simpl in *.
  - split; [reflexivity|]. destruct b as [|y b]; [reflexivity|].
    simpl in H. now apply andb_true_iff in H as [_ H].
  - apply andb_true_iff in H as [H1 H2]. rewrite H1.
    destruct (IH x H2) as [Ha Hb]. now rewrite Ha.
Qed.

Lemma lower_ascending_app (a b : list tier) :
  lower_ascending (a ++ b) = true ->
  lower_ascending a = true /\ lower_ascending b = true.
Proof.
  destruct a as [|t a]; [intros H; split; [reflexivity|exact H]|].
  simpl. apply lower_ascending_from_app.
Qed.

Lemma group_ranges_ascending (rest : list tier) :
  forall closed cur idx lu,
    forallb (fun p => lower_ascending (tiers_of p)) closed = true ->
    lower_ascending (cur ++ rest) = true ->
    forallb (fun p => lower_ascending (tiers_of p))
      (Step3.group_ranges closed cur idx lu rest) = true.
Proof.
  induction rest as [|fr rest IH]; intros closed cur idx lu Hc Hasc; simpl.
  - rewrite app_nil_r in Hasc. rewrite forallb_app, Hc. simpl. now rewrite Hasc.
  - destruct (Step3.continues (lower fr) lu).
    + apply IH; [assumption|]. now rewrite <- app_assoc.
    + destruct (lower_ascending_app cur (fr :: rest) Hasc) as [Hcur Hrest].
      apply IH; [|exact Hrest].
      rewrite forallb_app, Hc. simpl. now rewrite Hcur.
Qed.

Lemma flats_ascending (flats : list product) :
  forallb is_flat flats = true ->
  forallb (fun p => lower_ascending (tiers_of p)) flats = true.
Proof.
  induction flats as [|p ps IH]; [reflexivity|].
  simpl. intros H. apply andb_true_iff in H as [Hp Hps].
  destruct p; [|discriminate]. now apply IH.
Qed.

(** Property X15.  In [enhanced_fee_analysis_step3.py] the tiers of every
    product are in ascending order of their lower bound, whatever the order of
    the columns. *)
Theorem step3_tiers_ascending (r : row) :
  forallb (fun p => lower_ascending (tiers_of p)) (snd (Step3.identify_products r)) = true.
Proof.
  rewrite step3_products.
  apply (forallb_perm _ _ _ (sort_products_perm _)).
  unfold Step3.group_products.
  pose proof (sort_ranges_ascending
                (flat_map (fun i => Step3.fee_range i (Step3.extract_fee_range (cell r i)))
                   (seq 1 8))) as Hs.
  destruct (Step3.sort_ranges _) as [|first rest].
  - apply flats_ascending, step3_flats_flat.
  - apply group_ranges_ascending; [apply flats_ascending, step3_flats_flat|exact Hs].
Qed.

(** In [enhanced_fee_analysis.py] the tiers keep the order of the columns
    instead. *)
Example main_tiers_in_column_order :
  forallb (fun p => lower_ascending (tiers_of p))
    (snd (Main.identify_products
            (mkRow 0 None [Some "$500000+ (1.0%)"; Some "$0 - $500000 (1.2%)"])))
  = false.
Proof. vm_compute. reflexivity. Qed.

(** ** Adviser and filing date from the file name *)

Lemma match_here_plus (a : atom) (r : regex) (c : ascii) (s opened : string)
    (caps : list string) :
  match_here (Rep Plus a :: r) (String c s) opened caps
  = if atom_matches a c
    then star_loop a (fun s' => match_here r s' opened caps) s
    else None.
Proof. reflexivity. Qed.

Lemma match_here_once (a : atom) (r : regex) (c : ascii) (s opened : string)
    (caps : list string) :
  match_here (Rep Once a :: r) (String c s) opened caps
  = if atom_matches a c then match_here r s opened caps else None.
Proof. reflexivity. Qed.

Lemma search_here (r : regex) (s : string) (m : list string) :
  match_here r s "" [] = Some m -> search r s = Some m.
Proof. intros H. destruct s; simpl; now rewrite H. Qed.

Lemma lits_match (p : string) (r : regex) (s opened : string) (caps : list string) :
  match_here (Adviser.lits p ++ r) (p ++ s)%string opened caps
  = match_here r s opened caps.
Proof.
  induction p as [|c p IH]; [reflexivity|].
  cbn [Adviser.lits app append]. rewrite match_here_once.
  cbn [atom_matches]. now rewrite Ascii.eqb_refl.
Qed.

(** A greedy loop that can take a whole run of matching characters, and
    whose continuation then succeeds, stops there. *)
Lemma star_loop_greedy {A : Type} (a : atom) (k : string -> option A)
    (p rest : string) (m : A) :
  all_chars (atom_matches a) p = true ->
  match rest with String ch _ => atom_matches a ch = false | EmptyString => True end ->
  k rest = Some m ->
  star_loop a k (p ++ rest)%string = Some m.
Proof.
  intros Hp Hrest Hk. induction p as [|c p IH]; cbn [append star_loop].
  - destruct rest as [|ch rest']; [exact Hk|]. cbn [star_loop]. now rewrite Hrest.
  - cbn [all_chars] in Hp. apply andb_true_iff in Hp as [Hc Hp].
    rewrite Hc, (IH Hp). reflexivity.
Qed.

Lemma underscore_stops (s : string) :
  match ("_" ++ s)%string with
  | String ch _ => atom_matches Digit ch = false
  | EmptyString => True
  end.
Proof. reflexivity. Qed.

(** A group of digits captures a whole numeral that an underscore ends. *)
Lemma digits_group_match (d s : string) (r : regex) (opened : string)
    (caps m : list string) :
  numeral d = true ->
  match_here r ("_" ++ s)%string "" (d :: caps) = Some m ->
  match_here (Adviser.digits_group ++ r) (d ++ "_" ++ s)%string opened caps = Some m.
Proof.
  intros Hd Hk. unfold numeral in Hd. apply andb_true_iff in Hd as [Hne Hd].
  destruct d as [|c d]; [discriminate Hne|].
  simpl in Hd. apply andb_true_iff in Hd as [Hc Hd].
  unfold Adviser.digits_group. cbn [app]. rewrite match_here_gopen.
  cbn [append]. rewrite match_here_plus.
  change (atom_matches Digit c) with (is_digit c). rewrite Hc.
  apply star_loop_greedy; [exact Hd|apply (underscore_stops s)|].
  cbv beta. rewrite match_here_gclose.
  pose proof (take_append (String c d) ("_" ++ s)) as E.
  cbn [append] in E, Hk |- *. rewrite E. exact Hk.
Qed.

Lemma filename_matches (id1 id2 seq_num date_str ending : string) :
  numeral id1 = true -> numeral id2 = true -> numeral seq_num = true ->
  numeral date_str = true ->
  search Adviser.filename_re (adviser_filename id1 id2 seq_num date_str ending)
  = Some [id1; id2; seq_num; date_str].
Proof.
  intros H1 H2 H3 H4. apply search_here.
  unfold Adviser.filename_re, adviser_filename.
  rewrite lits_match.
  change (String Adviser.backslash id1 ++ ?t)%string
    with (String Adviser.backslash (id1 ++ t))%string.
  cbn [app]. rewrite match_here_once. cbn [atom_matches]. rewrite Ascii.eqb_refl.
  apply digits_group_match; [exact H1|]. rewrite lits_match.
  apply digits_group_match; [exact H2|]. rewrite lits_match.
  apply digits_group_match; [exact H3|]. rewrite lits_match.
  change ("_fees_section" ++ ending)%string with ("_" ++ ("fees_section" ++ ending))%string.
  apply digits_group_match; [exact H4|].
  change ("_" ++ ("fees_section" ++ ending))%string with ("_fees_section" ++ ending)%string.
  rewrite <- (app_nil_r (Adviser.lits "_fees_section")).
  rewrite lits_match. reflexivity.
Qed.

(** Property X16.  For a file name in the documented form (the directory
    [formadv_part2_1_extracted], a backslash, three numerals and a date
    numeral separated by underscores, then [_fees_section] and any ending),
    [extract_adviser_info] returns the three numerals as integers.  The
    filing date is absent when the date numeral does not have eight digits, is
    the calendar date when the eight digits are one, and otherwise the
    function leaves with the [ValueError] of [strptime]. *)
Theorem adviser_info_of_filename (id1 id2 seq_num date_str ending : string) :
  numeral id1 = true -> numeral id2 = true -> numeral seq_num = true ->
  numeral date_str = true ->
  Adviser.extract_adviser_info (adviser_filename id1 id2 seq_num date_str ending)
  = if (String.length date_str =? 8)%nat then
      match Adviser.strptime date_str with
      | Some d =>
          Adviser.Returned
            (Adviser.mkInfo (Some (Adviser.int id1)) (Some (Adviser.int id2))
               (Some (Adviser.int seq_num)) (Some d))
      | None => Adviser.Raised
      end
    else
      Adviser.Returned
        (Adviser.mkInfo (Some (Adviser.int id1)) (Some (Adviser.int id2))
           (Some (Adviser.int seq_num)) None).
Proof.
  intros H1 H2 H3 H4. unfold Adviser.extract_adviser_info.
  now rewrite (filename_matches id1 id2 seq_num date_str ending H1 H2 H3 H4).
Qed.

Lemma adviser_info_of_filename_witness :
  (numeral "10046" = true /\ numeral "47037" = true /\ numeral "1" = true
   /\ numeral "20110331" = true)
  /\ Adviser.extract_adviser_info
       (adviser_filename "10046" "47037" "1" "20110331" ".txt.txt")
     = Adviser.Returned
         (Adviser.mkInfo (Some 10046%Z) (Some 47037%Z) (Some 1%Z)
            (Some (Adviser.mkDate 2011 3 31))).
Proof.
  assert (H1 : numeral "10046" = true) by reflexivity.
  assert (H2 : numeral "47037" = true) by reflexivity.
  assert (H3 : numeral "1" = true) by reflexivity.
  assert (H4 : numeral "20110331" = true) by reflexivity.
  split; [split; [exact H1|split; [exact H2|split; [exact H3|exact H4]]]|].
  exact (adviser_info_of_filename "10046" "47037" "1" "20110331" ".txt.txt"
           H1 H2 H3 H4).
Defined.

(** Dates that are no calendar dates make the function raise; a date
    numeral of another length is dropped. *)
Example adviser_info_bad_dates :
  Adviser.extract_adviser_info (adviser_filename "10046" "47037" "1" "20110431" ".txt")
  = Adviser.Raised
  /\ Adviser.extract_adviser_info (adviser_filename "10046" "47037" "1" "20110229" ".txt")
     = Adviser.Raised
  /\ Adviser.extract_adviser_info (adviser_filename "10046" "47037" "1" "20120229" ".txt")
     = Adviser.Returned
         (Adviser.mkInfo (Some 10046%Z) (Some 47037%Z) (Some 1%Z)
            (Some (Adviser.mkDate 2012 2 29)))
  /\ Adviser.extract_adviser_info (adviser_filename "10046" "47037" "1" "2011033" ".txt")
     = Adviser.Returned (Adviser.mkInfo (Some 10046%Z) (Some 47037%Z) (Some 1%Z) None).
Proof. repeat split; vm_compute; reflexivity. Qed.

(** Property X17.  A file name without a backslash, such as a path written
    with forward slashes, yields no adviser information at all: the three
    identifiers and the filing date are all absent. *)
Theorem adviser_info_needs_backslash (filename : string) :
  any_char (Ascii.eqb Adviser.backslash) filename = false ->
  Adviser.extract_adviser_info filename
  = Adviser.Returned (Adviser.mkInfo None None None None).
Proof.
  intros H. unfold Adviser.extract_adviser_info.
  rewrite (search_lacking (Ascii.eqb Adviser.backslash) Adviser.filename_re filename);
    [reflexivity| |exact H].
  apply Exists_exists. exists (Rep Once (Lit Adviser.backslash)).
  split; [|apply once_lit_needs].
  unfold Adviser.filename_re. apply in_or_app. right. now left.
Qed.

Lemma adviser_info_needs_backslash_witness :
  any_char (Ascii.eqb Adviser.backslash)
    "formadv_part2_1_extracted/10046_47037_1_20110331_fees_section.txt" = false
  /\ Adviser.extract_adviser_info
       "formadv_part2_1_extracted/10046_47037_1_20110331_fees_section.txt"
     = Adviser.Returned (Adviser.mkInfo None None None None).
Proof.
  assert (H : any_char (Ascii.eqb Adviser.backslash)
                "formadv_part2_1_extracted/10046_47037_1_20110331_fees_section.txt"
              = false) by reflexivity.
  split; [exact H|]. exact (adviser_info_needs_backslash _ H).
Defined.
